(** * The submission engine of luminarytrade's backend

    A shallow embedding of [backend/src/submitter]: the [Submission]
    entity, the repository it is stored in, the Bull queue the service
    feeds, the [SubmitterService] creation and read paths, the
    [StellarService] batch call and the [SubmissionProcessor] job handlers.

    [async]/[await] code is written in a state-and-exception monad; the
    state is the world the code acts on (table rows, queue, ledger). *)

From Stdlib Require Import String Ascii DecimalString Bool Arith Lia List.
Import ListNotations.
Open Scope string_scope.

Set Implicit Arguments.

(** ** Entity (entities/submission.entity.ts) *)

Inductive SubmissionStatus : Type :=
| PENDING
| PROCESSING
| COMPLETED
| FAILED
| RETRYING.

Definition status_eqb (a b : SubmissionStatus) : bool :=
  match a, b with
  | PENDING, PENDING | PROCESSING, PROCESSING | COMPLETED, COMPLETED
  | FAILED, FAILED | RETRYING, RETRYING => true
  | _, _ => false
  end.

(** [id] is a generated uuid: opaque, compared for equality only.  The
    n-th identifier the store hands out is modelled as the number [n]. *)
Definition Id := nat.

(** [payload] is a jsonb document, [Record<string, any>]: an association
    list from keys to (serialised) values. *)
Definition Payload := list (string * string).

(** [completedAt] is a [Date]; a point in time is a number of ticks. *)
Definition Date := nat.

(** The columns [createdAt] and [updatedAt] are written by the storage
    layer alone and read by none of the code below; they are left out. *)
Record Submission : Type := mkSubmission {
  id : Id;
  idempotencyKey : string;
  payload : Payload;
  status : SubmissionStatus;
  transactionHash : option string;   (* nullable *)
  retryCount : nat;                  (* default 0 *)
  maxRetries : nat;                  (* default 3 *)
  errorMessage : option string;      (* nullable *)
  completedAt : option Date          (* nullable *)
}.

Definition set_status (st : SubmissionStatus) (s : Submission) : Submission :=
  mkSubmission (id s) (idempotencyKey s) (payload s) st (transactionHash s)
    (retryCount s) (maxRetries s) (errorMessage s) (completedAt s).

Definition set_transactionHash (h : option string) (s : Submission) : Submission :=
  mkSubmission (id s) (idempotencyKey s) (payload s) (status s) h
    (retryCount s) (maxRetries s) (errorMessage s) (completedAt s).

Definition set_retryCount (n : nat) (s : Submission) : Submission :=
  mkSubmission (id s) (idempotencyKey s) (payload s) (status s) (transactionHash s)
    n (maxRetries s) (errorMessage s) (completedAt s).

Definition set_errorMessage (m : option string) (s : Submission) : Submission :=
  mkSubmission (id s) (idempotencyKey s) (payload s) (status s) (transactionHash s)
    (retryCount s) (maxRetries s) m (completedAt s).

Definition set_completedAt (d : option Date) (s : Submission) : Submission :=
  mkSubmission (id s) (idempotencyKey s) (payload s) (status s) (transactionHash s)
    (retryCount s) (maxRetries s) (errorMessage s) d.

(** dto/create-submission.dto.ts *)
Record CreateSubmissionDto : Type := mkDto {
  dto_idempotencyKey : string;
  dto_payload : Payload
}.

(** ** Exceptions and jobs *)

Inductive Exception : Type :=
| ConflictException (message : string)
| NotFoundException (message : string)
| QueryFailedError (message : string)
| Error (message : string).

Definition message_of (e : Exception) : string :=
  match e with
  | ConflictException m | NotFoundException m | QueryFailedError m | Error m => m
  end.

(** The two job kinds of the queue ['submissions'], with their data. *)
Inductive Job : Type :=
| submit_single (submissionId : Id)
| submit_batch (submissionIds : list Id).

(** Template-literal interpolation of a number: its decimal digits, which
    is what JavaScript prints for an integer below 2^53.  (Above, it prints
    the shortest digits that read back as the same double.) *)
Definition show_nat (n : nat) : string := NilZero.string_of_uint (Nat.to_uint n).

(** ** The monad of awaited computations

    A computation over a state [St] either returns a value or throws, and
    leaves a state behind in both cases. *)

Definition M (St A : Type) : Type := St -> (Exception + A) * St.

Definition ret {St A} (a : A) : M St A := fun w => (inr a, w).

Definition throw {St A} (e : Exception) : M St A := fun w => (inl e, w).

Definition bind {St A B} (m : M St A) (k : A -> M St B) : M St B :=
  fun w => match m w with
           | (inl e, w') => (inl e, w')
           | (inr a, w') => k a w'
           end.

Definition try_catch {St A} (body : M St A) (handler : Exception -> M St A) : M St A :=
  fun w => match body w with
           | (inl e, w') => handler e w'
           | (inr a, w') => (inr a, w')
           end.

Definition modify {St} (f : St -> St) : M St unit := fun w => (inr tt, f w).

Declare Scope await_scope.
Delimit Scope await_scope with await.
Notation "x <- c ;; k" := (bind c (fun x => k))
  (at level 61, c at next level, right associativity) : await_scope.
Notation "c ;; k" := (bind c (fun _ => k))
  (at level 61, right associativity) : await_scope.
Open Scope await_scope.

(** ** The ledger collaborator

    [StellarService.submitTransaction] signs and sends a transaction through
    the Stellar SDK and returns [result.hash], or throws.  The network and
    the SDK lie outside the repository: they are an interface, a state [L]
    with one operation that answers a transaction hash ([inr]) or the
    message of the error it throws ([inl]).  A transaction hash is never the
    empty string. *)
Class LedgerClient (L : Type) : Type := {
  submitTransaction : Payload -> L -> (string + string) * L;
  hash_nonempty : forall p l h l', submitTransaction p l = (inr h, l') -> h <> ""
}.

(** ** The world: repository, queue, ledger, clock *)

Record World (L : Type) : Type := mkWorld {
  rows : list Submission;   (* table 'submissions', in insertion order *)
  next_id : Id;             (* next generated identifier *)
  queue : list Job;         (* jobs added to the queue, oldest first *)
  ledger : L;
  clock : Date
}.

(** The first row with a given key, or a given id: what [findOne] with a
    [where] clause on that column resolves to ([None] is [null]). *)
Definition row_with_key (key : string) (table : list Submission) : option Submission :=
  find (fun s => String.eqb (idempotencyKey s) key) table.

Definition row_with_id (i : Id) (table : list Submission) : option Submission :=
  find (fun s => Nat.eqb (id s) i) table.

Section Engine.

Context {L : Type} {LC : LedgerClient L}.

Local Abbreviation W := (World L).

Definition set_rows (r : list Submission) (w : W) : W :=
  mkWorld r (next_id w) (queue w) (ledger w) (clock w).

Definition set_ledger (l : L) (w : W) : W :=
  mkWorld (rows w) (next_id w) (queue w) l (clock w).

(** *** Repository<Submission> *)

(** [findOne({ where: { idempotencyKey } })] *)
Definition findOne_by_idempotencyKey (key : string) : M W (option Submission) :=
  fun w => (inr (row_with_key key (rows w)), w).

(** [findOne({ where: { id } })] *)
Definition findOne_by_id (i : Id) : M W (option Submission) :=
  fun w => (inr (row_with_id i (rows w)), w).

(** [find({ where: { status } })] *)
Definition find_by_status (st : SubmissionStatus) : M W (list Submission) :=
  fun w => (inr (filter (fun s => status_eqb (status s) st) (rows w)), w).

(** [find({ take: n })] *)
Definition find_take (n : nat) : M W (list Submission) :=
  fun w => (inr (firstn n (rows w)), w).

(** [findByIds(ids)]: the rows whose id is one of [ids] (an SQL [IN]); the
    result follows the table, not [ids]. *)
Definition findByIds (ids : list Id) : M W (list Submission) :=
  fun w => (inr (filter (fun s => existsb (Nat.eqb (id s)) ids) (rows w)), w).

(** [create({ idempotencyKey, payload, status })] followed by [save] of the
    new entity: an INSERT.  The unique index on [idempotencyKey] rejects a
    second row with the same key; the generated id and the column defaults
    are filled in and the stored entity is handed back. *)
Definition save_new (key : string) (p : Payload) (st : SubmissionStatus)
  : M W Submission :=
  fun w =>
    if existsb (fun s => String.eqb (idempotencyKey s) key) (rows w)
    then (inl (QueryFailedError
                 "duplicate key value violates unique constraint"), w)
    else
      let s := mkSubmission (next_id w) key p st None 0 3 None None in
      (inr s, mkWorld (rows w ++ [s]) (S (next_id w)) (queue w) (ledger w) (clock w)).

Fixpoint replace_row (s : Submission) (l : list Submission) : list Submission :=
  match l with
  | [] => []
  | r :: l' => if Nat.eqb (id r) (id s) then s :: l' else r :: replace_row s l'
  end.

(** [save] of an entity loaded from the table: an UPDATE of the row with
    its id.  No code below assigns [idempotencyKey], so the unique index
    is not involved. *)
Definition save (s : Submission) : M W unit :=
  modify (fun w => set_rows (replace_row s (rows w)) w).

(** *** Queue *)

(** [submissionQueue.add(name, data)] *)
Definition queue_add (j : Job) : M W unit :=
  modify (fun w => mkWorld (rows w) (next_id w) (queue w ++ [j]) (ledger w) (clock w)).

(** [new Date()] *)
Definition new_Date : M W Date := fun w => (inr (clock w), w).

(** *** StellarService (stellar.service.ts) *)

(** [submitTransaction(payload)] as the awaited call the other code makes:
    the ledger moves on, and a failure is thrown as an error carrying the
    ledger's message. *)
Definition stellar_submitTransaction (p : Payload) : M W string :=
  fun w => match submitTransaction p (ledger w) with
           | (inl msg, l') => (inl (Error msg), set_ledger l' w)
           | (inr hash, l') => (inr hash, set_ledger l' w)
           end.

(** The loop of [submitBatch]; [hashes] is the array pushed to: a hash for a
    payload that went through, [null] ([None]) for one that threw. *)
Fixpoint submitBatch_loop (payloads : list Payload) (hashes : list (option string))
  : M W (list (option string)) :=
  match payloads with
  | [] => ret hashes
  | p :: rest =>
      hashes' <- try_catch
                   (hash <- stellar_submitTransaction p ;;
                    ret (hashes ++ [Some hash])%list)
                   (fun _ => ret (hashes ++ [None])%list) ;;
      submitBatch_loop rest hashes'
  end.

Definition submitBatch (payloads : list Payload) : M W (list (option string)) :=
  submitBatch_loop payloads [].

(** *** SubmitterService (submitter.service.ts) *)

Definition createSubmission (dto : CreateSubmissionDto) : M W Submission :=
  existing <- findOne_by_idempotencyKey (dto_idempotencyKey dto) ;;
  match existing with
  | Some _ =>
      throw (ConflictException
               ("Submission with idempotency key " ++ dto_idempotencyKey dto
                ++ " already exists"))
  | None =>
      submission <- save_new (dto_idempotencyKey dto) (dto_payload dto) PENDING ;;
      queue_add (submit_single (id submission)) ;;
      ret submission
  end.

Definition getSubmission (i : Id) : M W Submission :=
  submission <- findOne_by_id i ;;
  match submission with
  | None => throw (NotFoundException ("Submission " ++ show_nat i ++ " not found"))
  | Some s => ret s
  end.

(** The result is what [findOne] resolves to: the entity, or [null]. *)
Definition getByIdempotencyKey (key : string) : M W (option Submission) :=
  findOne_by_idempotencyKey key.

(** [status] is an optional parameter; every member of the enum is a
    non-empty string, so [if (status)] holds exactly when it is given. *)
Definition listSubmissions (st : option SubmissionStatus) : M W (list Submission) :=
  match st with
  | Some st => find_by_status st
  | None => find_take 100
  end.

(** The [for ... of] loop of [createBatch]; [submissions] is the array
    pushed to. *)
Fixpoint createBatch_loop (dtos : list CreateSubmissionDto) (submissions : list Submission)
  : M W (list Submission) :=
  match dtos with
  | [] => ret submissions
  | dto :: rest =>
      submission <- createSubmission dto ;;
      createBatch_loop rest (submissions ++ [submission])%list
  end.

Definition createBatch (dtos : list CreateSubmissionDto) : M W (list Submission) :=
  submissions <- createBatch_loop dtos [] ;;
  queue_add (submit_batch (map id submissions)) ;;
  ret submissions.

(** *** SubmissionProcessor (submission.processor.ts) *)

(** [Math.pow(2, retryCount) * 1000], in milliseconds, computed in [nat].
    The double the code computes is this integer for every retry count up
    to 1014 and [Infinity] above; what is stated about the delay is stated
    within that range. *)
Definition backoff_delay (retryCount : nat) : nat := 2 ^ retryCount * 1000.

Definition retry_message (delay : nat) : string :=
  "Retry needed with delay " ++ show_nat delay ++ "ms".

(** A handler works on the entity object it loaded, the local variable
    [submission], which it mutates and saves; the table changes only on
    [save].  The state of these computations is the object and the world. *)
Local Abbreviation Frame := (Submission * W)%type.

Definition in_world {A} (m : M W A) : M Frame A :=
  fun f => match m (snd f) with (r, w') => (r, (fst f, w')) end.

Definition the_submission : M Frame Submission := fun f => (inr (fst f), f).

Definition assign (upd : Submission -> Submission) : M Frame unit :=
  modify (fun f => (upd (fst f), snd f)).

Definition save_submission : M Frame unit :=
  submission <- the_submission ;; in_world (save submission).

(** The [try]/[catch] statement of [handleSingleSubmission]. *)
Definition attempt_single : M Frame unit :=
  try_catch
    (assign (set_status PROCESSING) ;;
     save_submission ;;
     submission <- the_submission ;;
     txHash <- in_world (stellar_submitTransaction (payload submission)) ;;
     assign (set_status COMPLETED) ;;
     assign (set_transactionHash (Some txHash)) ;;
     now <- in_world new_Date ;;
     assign (set_completedAt (Some now)) ;;
     save_submission)
    (fun error =>
     assign (fun s => set_retryCount (S (retryCount s)) s) ;;
     assign (set_errorMessage (Some (message_of error))) ;;
     submission <- the_submission ;;
     (if (maxRetries submission <=? retryCount submission)%nat
      then assign (set_status FAILED)
      else
        assign (set_status RETRYING) ;;
        throw (Error (retry_message (backoff_delay (retryCount submission))))) ;;
     save_submission).

Definition handleSingleSubmission (submissionId : Id) : M W unit :=
  submission <- findOne_by_id submissionId ;;
  match submission with
  | None => ret tt
  | Some s => fun w => match attempt_single (s, w) with (r, f) => (r, snd f) end
  end.

(** [if (txHash)]: the element is a non-empty string rather than [null],
    [undefined] (an index past the end of the array) or [''] . *)
Definition truthy (txHash : option (option string)) : option string :=
  match txHash with
  | Some (Some h) => if String.eqb h "" then None else Some h
  | _ => None
  end.

(** The [for (let i = 0; ...)] loop of [handleBatchSubmission], from index
    [i] on; [todo] is [submissions] from that index. *)
Fixpoint update_loop (todo : list Submission) (i : nat) (txHashes : list (option string))
  : M W unit :=
  match todo with
  | [] => ret tt
  | submission :: rest =>
      submission' <-
        match truthy (nth_error txHashes i) with
        | Some txHash =>
            now <- new_Date ;;
            ret (set_completedAt (Some now)
                   (set_transactionHash (Some txHash)
                      (set_status COMPLETED submission)))
        | None =>
            ret (set_errorMessage (Some "Batch submission failed")
                   (set_status FAILED submission))
        end ;;
      save submission' ;;
      update_loop rest (S i) txHashes
  end.

Definition handleBatchSubmission (submissionIds : list Id) : M W unit :=
  submissions <- findByIds submissionIds ;;
  let payloads := map payload submissions in
  try_catch
    (txHashes <- submitBatch payloads ;;
     update_loop submissions 0 txHashes)
    (fun error => throw error).

(** One processor step: the handler registered for the job's name. *)
Definition process (j : Job) : M W unit :=
  match j with
  | submit_single submissionId => handleSingleSubmission submissionId
  | submit_batch submissionIds => handleBatchSubmission submissionIds
  end.

End Engine.

(** ** Vocabulary of the properties *)

(** The primary key holds: no two rows share an id. *)
Fixpoint distinct (l : list Id) : bool :=
  match l with
  | [] => true
  | x :: r => negb (existsb (Nat.eqb x) r) && distinct r
  end.

Definition unique_ids {L} (w : World L) : Prop := distinct (map id (rows w)) = true.

(** What the generated primary key gives: distinct ids, all of them handed
    out before [next_id]. *)
Definition store_ok {L} (w : World L) : Prop :=
  unique_ids w /\ Forall (fun i => i < next_id w) (map id (rows w)).

Definition is_terminal (st : SubmissionStatus) : bool :=
  match st with
  | COMPLETED | FAILED => true
  | _ => false
  end.

(** Whether a job names a submission. *)
Definition references (j : Job) (i : Id) : bool :=
  match j with
  | submit_single submissionId => Nat.eqb submissionId i
  | submit_batch submissionIds => existsb (Nat.eqb i) submissionIds
  end.

(** The rows [createSubmission] inserts for a list of requests when none
    conflicts, the first with id [n]. *)
Fixpoint new_records (n : Id) (dtos : list CreateSubmissionDto) : list Submission :=
  match dtos with
  | [] => []
  | d :: rest =>
      mkSubmission n (dto_idempotencyKey d) (dto_payload d) PENDING None 0 3 None None
        :: new_records (S n) rest
  end.

(** No request carries a key in [keys] or the key of an earlier request. *)
Fixpoint all_fresh (dtos : list CreateSubmissionDto) (keys : list string) : bool :=
  match dtos with
  | [] => true
  | d :: rest =>
      negb (existsb (String.eqb (dto_idempotencyKey d)) keys)
      && all_fresh rest (keys ++ [dto_idempotencyKey d])
  end.

(** What the batch loop stores for a record, given the element of
    [txHashes] at its index and the time. *)
Definition batch_result (now : Date) (txHash : option (option string)) (s : Submission)
  : Submission :=
  match truthy txHash with
  | Some h => set_completedAt (Some now) (set_transactionHash (Some h) (set_status COMPLETED s))
  | None => set_errorMessage (Some "Batch submission failed") (set_status FAILED s)
  end.

(** The answers of the ledger to a sequence of payloads sent one after the
    other, and the ledger afterwards. *)
Fixpoint ledger_answers {L} {LC : LedgerClient L} (payloads : list Payload) (l : L)
  : list (string + string) * L :=
  match payloads with
  | [] => ([], l)
  | p :: rest =>
      match submitTransaction p l with
      | (a, l') => match ledger_answers rest l' with (r, l'') => (a :: r, l'') end
      end
  end.

(** The position of a batch outcome: a reference, or the absent marker. *)
Definition outcome_of (a : string + string) : option string :=
  match a with
  | inr hash => Some hash
  | inl _ => None
  end.

(** The world after [n] deliveries of the job [submit-single] for [i], one
    after the other. *)
Fixpoint deliveries {L} {LC : LedgerClient L} (n : nat) (i : Id) (w : World L) : World L :=
  match n with
  | 0 => w
  | S n' => deliveries n' i (snd (handleSingleSubmission i w))
  end.

(** ** Two ledgers to run the engine on *)

(** A ledger that follows a script: the next call succeeds when the head of
    [outcomes] is [true] and fails otherwise (also when the script is
    used up).  The hash of the n-th transaction sent is ["tx"] followed by
    [n], so no two calls return the same hash. *)
Record Scripted : Type := mkScripted {
  outcomes : list bool;
  calls : nat
}.

Definition scripted_submit (p : Payload) (l : Scripted) : (string + string) * Scripted :=
  match outcomes l with
  | true :: rest => (inr ("tx" ++ show_nat (calls l)), mkScripted rest (S (calls l)))
  | false :: rest => (inl "tx_failed", mkScripted rest (S (calls l)))
  | [] => (inl "tx_failed", mkScripted [] (S (calls l)))
  end.

Lemma scripted_hash_nonempty p l h l' :
  scripted_submit p l = (inr h, l') -> h <> "".
Proof.
  unfold scripted_submit.
  destruct (outcomes l) as [|[] rest]; intros E; inversion E; discriminate.
Qed.

#[export] Instance scripted_ledger : LedgerClient Scripted :=
  {| submitTransaction := scripted_submit; hash_nonempty := scripted_hash_nonempty |}.

(** A ledger that is down: every call fails; the state counts the calls. *)
Definition down_submit (p : Payload) (n : nat) : (string + string) * nat :=
  (inl "ledger unavailable", S n).

Lemma down_hash_nonempty p l h l' : down_submit p l = (inr h, l') -> h <> "".
Proof. unfold down_submit; intros E; inversion E. Qed.

#[export] Instance down_ledger : LedgerClient nat :=
  {| submitTransaction := down_submit; hash_nonempty := down_hash_nonempty |}.

(** An empty store in front of a scripted ledger. *)
Definition empty_world (script : list bool) : World Scripted :=
  mkWorld [] 0 [] (mkScripted script 0) 0.

Definition doc (hash : string) : Payload := [("documentHash", hash)].

Definition request (key hash : string) : CreateSubmissionDto := mkDto key (doc hash).

(** The entity as [handleSingleSubmission] leaves it in its three branches. *)
Definition completed_with (txHash : string) (now : Date) (s : Submission) : Submission :=
  set_completedAt (Some now) (set_transactionHash (Some txHash) (set_status COMPLETED s)).

Definition failed_with (msg : string) (s : Submission) : Submission :=
  set_status FAILED (set_errorMessage (Some msg) (set_retryCount (S (retryCount s)) s)).

(** The table after the loop of [handleBatchSubmission] went through
    [todo] from index [i]: one [save] per record. *)
Fixpoint update_rows (todo : list Submission) (i : nat) (txHashes : list (option string))
  (now : Date) (table : list Submission) : list Submission :=
  match todo with
  | [] => table
  | s :: rest =>
      update_rows rest (S i) txHashes now
        (replace_row (batch_result now (nth_error txHashes i) s) table)
  end.

(** The two halves of the invariant of the data model. *)
Definition completed_has_hash (s : Submission) : Prop :=
  status s = COMPLETED -> transactionHash s <> None.

Definition completed_iff_hash (s : Submission) : Prop :=
  status s = COMPLETED <-> transactionHash s <> None.

(** The world after the loop went through [dtos] without a conflict. *)
Definition after_creating {L} (dtos : list CreateSubmissionDto) (w : World L)
  : World L :=
  mkWorld (rows w ++ new_records (next_id w) dtos)
    (next_id w + length dtos)
    (queue w ++ map (fun s => submit_single (id s)) (new_records (next_id w) dtos))
    (ledger w) (clock w).

(** ** Concrete worlds *)

Definition pending_k1 : Submission :=
  mkSubmission 0 "k1" (doc "h1") PENDING None 0 3 None None.

(** One request, key ["k1"], was accepted; the ledger will fail. *)
Definition stored_k1 : World Scripted :=
  snd (createSubmission (request "k1" "h1") (empty_world [])).

(** The same, in front of the ledger that is down. *)
Definition stored_k1_ledger_down : World nat :=
  snd (createSubmission (request "k1" "h1") (mkWorld [] 0 [] 0 0)).

(** One request was accepted and its job delivered once, with success; the
    ledger fails from then on. *)
Definition completed_k1 : World Scripted :=
  snd (process (submit_single 0)
         (snd (createSubmission (request "k1" "h1") (empty_world [true])))).

(** The same, with a ledger that takes the next payload too. *)
Definition completed_k1_ledger_up : World Scripted :=
  snd (process (submit_single 0)
         (snd (createSubmission (request "k1" "h1") (empty_world [true; true])))).

Definition completed_row : Submission :=
  mkSubmission 0 "k1" (doc "h1") COMPLETED (Some "tx0") 0 3 None (Some 0).

(** A batch of three was accepted; the ledger will take the first and the
    third payload and refuse the second. *)
Definition batch_of_three : World Scripted :=
  snd (createBatch [request "a" "1"; request "b" "2"; request "c" "3"]
         (empty_world [true; false; true])).

(** A batch of one was accepted and its submit-single job delivered, with
    success; the ledger will refuse the next payload. *)
Definition batch_of_one_completed : World Scripted :=
  snd (process (submit_single 0)
         (snd (createBatch [request "k1" "h1"] (empty_world [true; false])))).

(** A table of 150 pending submissions. *)
Definition crowded : World Scripted :=
  mkWorld
    (map (fun n => mkSubmission n (show_nat n) (doc "h") PENDING None 0 3 None None)
       (seq 0 150))
    150 [] (mkScripted [] 0) 0.

(** ** The claims as the specification words them, where the code differs *)

(** C2 as stated: a submit-single job for a terminal record changes neither
    ledger nor status, reference and retry count. *)
Definition redelivery_is_noop {L} {LC : LedgerClient L} (i : Id) (w : World L) : Prop :=
  forall s, row_with_id i (rows w) = Some s -> is_terminal (status s) = true ->
    ledger (snd (process (submit_single i) w)) = ledger w
    /\ exists s', row_with_id i (rows (snd (process (submit_single i) w))) = Some s'
                  /\ status s' = status s
                  /\ transactionHash s' = transactionHash s
                  /\ retryCount s' = retryCount s.

(** C2 as stated, for any job: a processor step changes neither status nor
    reference nor retry count of a terminal record. *)
Definition step_keeps_terminal {L} {LC : LedgerClient L} (j : Job) (w : World L) : Prop :=
  forall i s, row_with_id i (rows w) = Some s -> is_terminal (status s) = true ->
    exists s', row_with_id i (rows (snd (process j w))) = Some s'
               /\ status s' = status s
               /\ transactionHash s' = transactionHash s
               /\ retryCount s' = retryCount s.

(** C5 as stated: the batch call answers one submission per request and
    adds the submit-batch job with their ids, conflict or not. *)
Definition batch_survives_conflict {L} (dtos : list CreateSubmissionDto) (w : World L)
  : Prop :=
  exists submissions w',
    createBatch dtos w = (inr submissions, w')
    /\ length submissions = length dtos
    /\ In (submit_batch (map id submissions)) (queue w').

(** ** SubmitterController and the events of a run *)

(** The routes of [SubmitterController] (the controller declared after the
    processor in submission.processor.ts), each with what it takes from
    the request. *)
Inductive Request : Type :=
| POST_submissions (dto : CreateSubmissionDto)
| POST_submissions_batch (dtos : list CreateSubmissionDto)
| GET_submissions (status : option SubmissionStatus)
| GET_submissions_id (i : Id)
| GET_submissions_key (key : string).

(** What a route hands back: whatever the service method resolves to. *)
Inductive Response : Type :=
| one (s : Submission)
| one_or_null (s : option Submission)
| many (l : list Submission).

Definition SubmitterController {L} (r : Request) : M (World L) Response :=
  match r with
  | POST_submissions dto => s <- createSubmission dto ;; ret (one s)
  | POST_submissions_batch dtos => l <- createBatch dtos ;; ret (many l)
  | GET_submissions status => l <- listSubmissions status ;; ret (many l)
  | GET_submissions_id i => s <- getSubmission i ;; ret (one s)
  | GET_submissions_key key => s <- getByIdempotencyKey key ;; ret (one_or_null s)
  end.

(** What happens to a deployed engine: a request comes in, the queue
    delivers a job (any job, any number of times), or time passes. *)
Inductive Event : Type :=
| http (r : Request)
| delivery (j : Job)
| elapse (t : nat).

Definition after_event {L} {LC : LedgerClient L} (w : World L) (e : Event) : World L :=
  match e with
  | http r => snd (SubmitterController r w)
  | delivery j => snd (process j w)
  | elapse t => mkWorld (rows w) (next_id w) (queue w) (ledger w) (clock w + t)
  end.

Definition after_events {L} {LC : LedgerClient L} (es : list Event) (w : World L)
  : World L :=
  fold_left after_event es w.

(** A fresh deployment: no row, no job. *)
Definition fresh_world {L} (l : L) (now : Date) : World L := mkWorld [] 0 [] l now.

(** The columns no code assigns after the insert. *)
Definition fixed_columns (s : Submission) : Id * string * Payload * nat :=
  (id s, idempotencyKey s, payload s, maxRetries s).

(** What every row of a deployed engine looks like (see
    [rows_of_a_run_never_retry]). *)
Definition never_retried (s : Submission) : Prop :=
  maxRetries s = 3
  /\ retryCount s = 0
  /\ status s <> RETRYING
  /\ (errorMessage s = None \/ errorMessage s = Some "Batch submission failed")
  /\ (status s = FAILED -> errorMessage s = Some "Batch submission failed").

(** The keys of a deployed engine: ids are handed out in order, one per
    row, and no two rows share an idempotency key. *)
Definition keys_sound {L} (w : World L) : Prop :=
  map id (rows w) = seq 0 (next_id w)
  /\ NoDup (map idempotencyKey (rows w)).

(** Queue and table agree: a queued job names ids that were handed out,
    and every row has its submit-single job in the queue. *)
Definition queue_matches_rows {L} (w : World L) : Prop :=
  Forall (fun j => forall i, references j i = true -> i < next_id w) (queue w)
  /\ Forall (fun s => In (submit_single (id s)) (queue w)) (rows w).

(** * Properties *)

Local Open Scope list_scope.

(** ** The table *)

Lemma status_eqb_spec a b : reflect (a = b) (status_eqb a b).
Proof. destruct a, b; simpl; constructor; congruence. Qed.

Lemma row_with_id_some i table s :
  row_with_id i table = Some s -> id s = i /\ In s table.
Proof.
  unfold row_with_id; intros E.
  apply find_some in E as [HIn Hid].
  apply Nat.eqb_eq in Hid; auto.
Qed.

Lemma row_with_id_replace j s table :
  row_with_id j (replace_row s table) =
  if Nat.eqb (id s) j
  then match row_with_id j table with Some _ => Some s | None => None end
  else row_with_id j table.
Proof.
  unfold row_with_id.
  induction table as [|r table IH]; simpl.
  - destruct (id s =? j)%nat; reflexivity.
  - destruct (id r =? id s)%nat eqn:Ers; simpl.
    + apply Nat.eqb_eq in Ers. rewrite Ers.
      destruct (id s =? j)%nat; reflexivity.
    + rewrite IH.
      destruct (id s =? j)%nat eqn:Esj.
      * apply Nat.eqb_eq in Esj. subst j. rewrite Ers. reflexivity.
      * destruct (id r =? j)%nat; reflexivity.
Qed.

Lemma replace_row_ids s table : map id (replace_row s table) = map id table.
Proof.
  induction table as [|r table IH]; simpl; [reflexivity|].
  destruct (id r =? id s)%nat eqn:E; simpl.
  - apply Nat.eqb_eq in E. now rewrite E.
  - now rewrite IH.
Qed.

Lemma replace_row_twice s1 s2 table :
  id s1 = id s2 -> replace_row s2 (replace_row s1 table) = replace_row s2 table.
Proof.
  intros E. induction table as [|r table IH]; simpl; [reflexivity|].
  rewrite E.
  destruct (id r =? id s2)%nat eqn:Er; simpl.
  - rewrite E, Nat.eqb_refl. reflexivity.
  - rewrite Er. now rewrite IH.
Qed.

Lemma replace_row_in s0 s table :
  In s0 (replace_row s table) -> s0 = s \/ In s0 table.
Proof.
  induction table as [|r table IH]; simpl; [tauto|].
  destruct (id r =? id s)%nat; simpl; intuition.
Qed.

Lemma distinct_NoDup l : distinct l = true <-> NoDup l.
Proof.
  induction l as [|x l IH]; simpl.
  - split; [constructor | reflexivity].
  - rewrite andb_true_iff, negb_true_iff, IH. split.
    + intros [Hx Hl]. constructor; [|assumption].
      intros HIn. assert (existsb (Nat.eqb x) l = true) as C.
      { apply existsb_exists. exists x. split; [assumption | apply Nat.eqb_refl]. }
      congruence.
    + intros Hnd. inversion Hnd as [|? ? Hx Hl]; subst. split; [|assumption].
      destruct (existsb (Nat.eqb x) l) eqn:E; [|reflexivity].
      apply existsb_exists in E as [y [Hy Exy]].
      apply Nat.eqb_eq in Exy. subst y. contradiction.
Qed.

Lemma row_with_key_none key table :
  row_with_key key table = None ->
  existsb (fun s => String.eqb (idempotencyKey s) key) table = false.
Proof.
  unfold row_with_key. induction table as [|r table IH]; simpl; [reflexivity|].
  destruct (String.eqb (idempotencyKey r) key); [discriminate | exact IH].
Qed.

Lemma row_with_key_keys key table :
  existsb (fun s => String.eqb (idempotencyKey s) key) table
  = existsb (String.eqb key) (map idempotencyKey table).
Proof.
  induction table as [|r table IH]; simpl; [reflexivity|].
  now rewrite IH, (String.eqb_sym key).
Qed.

Section Properties.

Context {L : Type} {LC : LedgerClient L}.

Local Abbreviation W := (World L).

(** ** [handleSingleSubmission], branch by branch *)

(** An unknown id: the job is dropped, nothing is written, the ledger is
    not called. *)
Lemma handleSingleSubmission_unknown (w : W) i :
  row_with_id i (rows w) = None -> handleSingleSubmission i w = (inr tt, w).
Proof.
  intros E. unfold handleSingleSubmission, bind, findOne_by_id. now rewrite E.
Qed.

(** A known id, whatever the status read: the row is saved as PROCESSING
    and the ledger is called with its payload; then the row is saved as
    COMPLETED, or as FAILED, or the handler throws before it saves. *)
Lemma handleSingleSubmission_found (w : W) i s :
  row_with_id i (rows w) = Some s ->
  handleSingleSubmission i w =
  match submitTransaction (payload s) (ledger w) with
  | (inr txHash, l') =>
      (inr tt,
       mkWorld (replace_row (completed_with txHash (clock w) s) (rows w))
         (next_id w) (queue w) l' (clock w))
  | (inl msg, l') =>
      if (maxRetries s <=? S (retryCount s))%nat
      then (inr tt,
            mkWorld (replace_row (failed_with msg s) (rows w))
              (next_id w) (queue w) l' (clock w))
      else (inl (Error (retry_message (backoff_delay (S (retryCount s))))),
            mkWorld (replace_row (set_status PROCESSING s) (rows w))
              (next_id w) (queue w) l' (clock w))
  end.
Proof.
  intros E.
  unfold handleSingleSubmission, bind at 1, findOne_by_id. rewrite E.
  destruct w as [rs n q l c]; simpl in *.
  unfold attempt_single, try_catch, bind, assign, modify, save_submission,
    the_submission, in_world, save, stellar_submitTransaction, new_Date, throw;
    simpl.
  destruct (submitTransaction (payload s) l) as [[msg|txHash] l']; simpl.
  - destruct (maxRetries s <=? S (retryCount s))%nat; simpl.
    + unfold set_rows; simpl. f_equal. f_equal.
      now apply replace_row_twice.
    + reflexivity.
  - unfold set_rows; simpl. f_equal. f_equal.
    now apply replace_row_twice.
Qed.

(** ** [createSubmission] *)

Lemma createSubmission_conflict (w : W) dto e :
  row_with_key (dto_idempotencyKey dto) (rows w) = Some e ->
  createSubmission dto w =
  (inl (ConflictException
          ("Submission with idempotency key " ++ dto_idempotencyKey dto
           ++ " already exists")), w).
Proof.
  intros E. unfold createSubmission, bind, findOne_by_idempotencyKey.
  now rewrite E.
Qed.

Lemma createSubmission_fresh (w : W) dto :
  row_with_key (dto_idempotencyKey dto) (rows w) = None ->
  createSubmission dto w =
  let s := mkSubmission (next_id w) (dto_idempotencyKey dto) (dto_payload dto)
             PENDING None 0 3 None None in
  (inr s,
   mkWorld (rows w ++ [s]) (S (next_id w))
     (queue w ++ [submit_single (next_id w)]) (ledger w) (clock w)).
Proof.
  intros E.
  unfold createSubmission, bind, findOne_by_idempotencyKey, save_new, queue_add,
    modify, ret.
  rewrite E, (row_with_key_none _ _ E). reflexivity.
Qed.

Lemma fresh_key_no_row key (table : list Submission) :
  existsb (String.eqb key) (map idempotencyKey table) = false ->
  row_with_key key table = None.
Proof.
  intros E. destruct (row_with_key key table) as [e|] eqn:F; [|reflexivity].
  apply find_some in F as [HIn Hk].
  rewrite <- row_with_key_keys in E.
  assert (existsb (fun s => String.eqb (idempotencyKey s) key) table = true) as C
    by (apply existsb_exists; eauto).
  congruence.
Qed.

Lemma taken_key_has_row key (table : list Submission) :
  existsb (String.eqb key) (map idempotencyKey table) = true ->
  exists e, row_with_key key table = Some e.
Proof.
  intros E. destruct (row_with_key key table) as [e|] eqn:F; [eauto|].
  apply row_with_key_none in F. rewrite row_with_key_keys in F. congruence.
Qed.

Lemma new_records_ids n dtos : map id (new_records n dtos) = seq n (length dtos).
Proof.
  revert n; induction dtos as [|d dtos IH]; intros n; simpl; [reflexivity|].
  now rewrite IH.
Qed.

(** ** The loop of [createBatch] *)

Lemma createBatch_loop_fresh dtos : forall acc (w : W),
  all_fresh dtos (map idempotencyKey (rows w)) = true ->
  createBatch_loop dtos acc w
  = (inr (acc ++ new_records (next_id w) dtos)%list, after_creating dtos w).
Proof.
  induction dtos as [|d dtos IH]; intros acc w Hf; simpl.
  - unfold ret, after_creating; simpl.
    rewrite !app_nil_r, Nat.add_0_r. destruct w; reflexivity.
  - simpl in Hf. apply andb_true_iff in Hf as [Hd Hrest].
    apply negb_true_iff in Hd.
    unfold bind. rewrite (createSubmission_fresh _ _ (fresh_key_no_row _ _ Hd)).
    cbv beta iota zeta. rewrite IH.
    + unfold after_creating; simpl.
      rewrite <- !app_assoc. simpl.
      now rewrite Nat.add_succ_r.
    + simpl. now rewrite map_app.
Qed.

Lemma createBatch_loop_conflict pre d post : forall acc (w : W),
  all_fresh pre (map idempotencyKey (rows w)) = true ->
  existsb (String.eqb (dto_idempotencyKey d))
    (map idempotencyKey (rows w) ++ map dto_idempotencyKey pre) = true ->
  createBatch_loop (pre ++ d :: post) acc w
  = (inl (ConflictException
            ("Submission with idempotency key " ++ dto_idempotencyKey d
             ++ " already exists")),
     after_creating pre w).
Proof.
  induction pre as [|p pre IH]; intros acc w Hf Hd; simpl.
  - rewrite app_nil_r in Hd. apply taken_key_has_row in Hd as [e He].
    unfold bind. rewrite (createSubmission_conflict _ _ He).
    unfold after_creating; simpl.
    rewrite !app_nil_r, Nat.add_0_r. destruct w; reflexivity.
  - simpl in Hf. apply andb_true_iff in Hf as [Hp Hrest].
    apply negb_true_iff in Hp.
    unfold bind. rewrite (createSubmission_fresh _ _ (fresh_key_no_row _ _ Hp)).
    cbv beta iota zeta. rewrite IH.
    + unfold after_creating; simpl.
      rewrite <- !app_assoc. simpl.
      now rewrite Nat.add_succ_r.
    + simpl. now rewrite map_app.
    + simpl. rewrite map_app. simpl. rewrite <- app_assoc. exact Hd.
Qed.

(** C5, as amended.  [createBatch] applies [createSubmission] to the
    requests in order and has no handler for the conflict it throws.  When
    no request carries a key that is already stored or that an earlier
    request of the batch carries, all N records are created, each with its
    own submit-single job, and then exactly one submit-batch job with the N
    ids, in request order, is added.  At the first request whose key is
    taken the conflict ends the call: the records of the requests before it
    stay stored with their submit-single jobs, no later request is looked
    at, and no submit-batch job is added. *)
Theorem createBatch_stops_at_first_conflict (w : W) (dtos : list CreateSubmissionDto) :
  (all_fresh dtos (map idempotencyKey (rows w)) = true ->
   let created := new_records (next_id w) dtos in
   exists w',
     createBatch dtos w = (inr created, w') /\
     length created = length dtos /\
     rows w' = rows w ++ created /\
     queue w' = queue w ++ map (fun s => submit_single (id s)) created
                ++ [submit_batch (map id created)])
  /\
  (forall pre d post,
   dtos = pre ++ d :: post ->
   all_fresh pre (map idempotencyKey (rows w)) = true ->
   existsb (String.eqb (dto_idempotencyKey d))
     (map idempotencyKey (rows w) ++ map dto_idempotencyKey pre) = true ->
   let created := new_records (next_id w) pre in
   exists w',
     createBatch dtos w
     = (inl (ConflictException
               ("Submission with idempotency key " ++ dto_idempotencyKey d
                ++ " already exists")), w') /\
     rows w' = rows w ++ created /\
     queue w' = queue w ++ map (fun s => submit_single (id s)) created).
Proof.
  split.
  - intros Hf created. unfold createBatch, bind.
    rewrite (createBatch_loop_fresh _ _ _ Hf). simpl.
    eexists. split; [reflexivity|]. simpl.
    repeat split.
    + unfold created. rewrite <- (length_map id), new_records_ids. apply length_seq.
    + now rewrite <- app_assoc.
  - intros pre d post -> Hf Hd created. unfold createBatch, bind.
    rewrite (createBatch_loop_conflict _ _ _ _ _ Hf Hd).
    eexists. split; [reflexivity|]. split; reflexivity.
Qed.

(** ** Read paths *)

Lemma getSubmission_not_found (w : W) i :
  row_with_id i (rows w) = None ->
  getSubmission i w
  = (inl (NotFoundException ("Submission " ++ show_nat i ++ " not found")), w).
Proof. intros E. unfold getSubmission, bind, findOne_by_id. now rewrite E. Qed.

Lemma getSubmission_found (w : W) i s :
  row_with_id i (rows w) = Some s -> getSubmission i w = (inr s, w).
Proof. intros E. unfold getSubmission, bind, findOne_by_id. now rewrite E. Qed.

Lemma getByIdempotencyKey_result (w : W) key :
  getByIdempotencyKey key w = (inr (row_with_key key (rows w)), w).
Proof. reflexivity. Qed.

(** C10.  Without a status, [listSubmissions] answers the first 100 rows of
    the table, so at most 100 submissions; with a status it answers the
    rows of that status, all of them: when every row has the status, the
    whole table comes back, however long it is. *)
Theorem listSubmissions_cap_only_without_filter (w : W) :
  listSubmissions None w = (inr (firstn 100 (rows w)), w)
  /\ length (firstn 100 (rows w)) <= 100
  /\ forall st,
       let found := filter (fun s => status_eqb (status s) st) (rows w) in
       listSubmissions (Some st) w = (inr found, w)
       /\ (forall s, In s found <-> In s (rows w) /\ status s = st)
       /\ ((forall s, In s (rows w) -> status s = st) -> found = rows w).
Proof.
  split; [reflexivity|]. split; [apply firstn_le_length|].
  intros st found. split; [reflexivity|]. split.
  - intros s. unfold found. rewrite filter_In.
    split; intros [HIn Hst]; split; try assumption.
    + now destruct (status_eqb_spec (status s) st).
    + subst st. now destruct (status_eqb_spec (status s) (status s)).
  - intros Hall. unfold found.
    induction (rows w) as [|r table IH]; simpl; [reflexivity|].
    rewrite (Hall r (or_introl eq_refl)).
    destruct (status_eqb_spec st st); [|congruence].
    f_equal. apply IH. intros s HIn. apply Hall. now right.
Qed.

(** ** Backoff *)

Lemma backoff_delay_increasing r r' : r < r' -> backoff_delay r < backoff_delay r'.
Proof.
  intros H. unfold backoff_delay.
  apply Nat.mul_lt_mono_pos_r; [lia|].
  apply Nat.pow_lt_mono_r; lia.
Qed.

(** ** [submitBatch] *)

Lemma submitBatch_loop_answers payloads : forall hashes (w : W),
  submitBatch_loop payloads hashes w
  = (inr (hashes ++ map outcome_of (fst (ledger_answers payloads (ledger w)))),
     set_ledger (snd (ledger_answers payloads (ledger w))) w).
Proof.
  induction payloads as [|p payloads IH]; intros hashes w; simpl.
  - rewrite app_nil_r. destruct w; reflexivity.
  - unfold bind, try_catch, stellar_submitTransaction, ret.
    destruct (submitTransaction p (ledger w)) as [[msg|hash] l'] eqn:E;
      rewrite IH; simpl;
      destruct (ledger_answers payloads l') as [answers l'']; simpl;
      now rewrite <- app_assoc.
Qed.

Lemma ledger_answers_length payloads : forall (l : L),
  length (fst (ledger_answers payloads l)) = length payloads.
Proof.
  induction payloads as [|p payloads IH]; intros l; simpl; [reflexivity|].
  destruct (submitTransaction p l) as [a l'].
  specialize (IH l'). destruct (ledger_answers payloads l'). simpl in *. now rewrite IH.
Qed.

Lemma ledger_answers_hash_nonempty payloads : forall (l : L) h,
  In (inr h) (fst (ledger_answers payloads l)) -> h <> "".
Proof.
  induction payloads as [|p payloads IH]; intros l h; simpl; [tauto|].
  destruct (submitTransaction p l) as [a l'] eqn:E.
  specialize (IH l' h). destruct (ledger_answers payloads l'). simpl in *.
  intros [->|HIn]; [exact (hash_nonempty _ _ E) | auto].
Qed.

(** ** The update loop of [handleBatchSubmission] *)

Lemma update_loop_rows todo : forall i txHashes (w : W),
  update_loop todo i txHashes w
  = (inr tt, set_rows (update_rows todo i txHashes (clock w) (rows w)) w).
Proof.
  induction todo as [|s todo IH]; intros i txHashes w; simpl.
  - destruct w; reflexivity.
  - unfold bind at 1.
    assert ((match truthy (nth_error txHashes i) with
             | Some txHash =>
                 now <- new_Date ;;
                 ret (set_completedAt (Some now)
                        (set_transactionHash (Some txHash) (set_status COMPLETED s)))
             | None =>
                 ret (set_errorMessage (Some "Batch submission failed")
                        (set_status FAILED s))
             end) w
            = (inr (batch_result (clock w) (nth_error txHashes i) s), w)) as ->.
    { unfold batch_result. destruct (truthy (nth_error txHashes i)); reflexivity. }
    unfold bind, save, modify. rewrite IH. reflexivity.
Qed.

Lemma batch_result_id now tx s : id (batch_result now tx s) = id s.
Proof. unfold batch_result. destruct (truthy tx); reflexivity. Qed.

Lemma update_rows_ids todo : forall i txHashes now table,
  map id (update_rows todo i txHashes now table) = map id table.
Proof.
  induction todo as [|s todo IH]; intros; simpl; [reflexivity|].
  now rewrite IH, replace_row_ids.
Qed.

Lemma update_rows_other todo : forall i txHashes now table j,
  ~ In j (map id todo) ->
  row_with_id j (update_rows todo i txHashes now table) = row_with_id j table.
Proof.
  induction todo as [|s todo IH]; intros i txHashes now table j Hj; simpl;
    [reflexivity|].
  simpl in Hj. rewrite IH by tauto.
  rewrite row_with_id_replace, batch_result_id.
  destruct (Nat.eqb_spec (id s) j); [tauto | reflexivity].
Qed.

Lemma update_rows_nth todo : forall i txHashes now table,
  NoDup (map id todo) ->
  (forall s, In s todo -> row_with_id (id s) table = Some s) ->
  forall k s, nth_error todo k = Some s ->
    row_with_id (id s) (update_rows todo i txHashes now table)
    = Some (batch_result now (nth_error txHashes (i + k)) s).
Proof.
  induction todo as [|s0 todo IH]; intros i txHashes now table Hnd Hrows k s Hk.
  - destruct k; discriminate.
  - simpl in Hnd. inversion Hnd as [|? ? Hfresh Hnd']; subst.
    destruct k as [|k]; simpl in Hk |- *.
    + injection Hk as ->.
      rewrite update_rows_other by assumption.
      rewrite row_with_id_replace, batch_result_id, Nat.eqb_refl.
      rewrite (Hrows s (or_introl eq_refl)), Nat.add_0_r. reflexivity.
    + rewrite Nat.add_succ_r. apply (IH (S i)); try assumption.
      intros s1 H1. rewrite row_with_id_replace, batch_result_id.
      destruct (Nat.eqb_spec (id s0) (id s1)) as [E|_].
      * exfalso. apply Hfresh. rewrite E. now apply in_map.
      * apply Hrows. now right.
Qed.

Lemma update_rows_in todo : forall i txHashes now table s',
  In s' (update_rows todo i txHashes now table) ->
  In s' table \/ exists s tx, In s todo /\ s' = batch_result now tx s.
Proof.
  induction todo as [|s0 todo IH]; intros i txHashes now table s' HIn; simpl in HIn.
  - now left.
  - apply IH in HIn as [HIn|(s & tx & Hs & ->)].
    + apply replace_row_in in HIn as [->|HIn]; [|now left].
      right. exists s0, (nth_error txHashes i). split; [now left | reflexivity].
    + right. exists s, tx. split; [now right | reflexivity].
Qed.

Lemma unique_row table s :
  NoDup (map id table) -> In s table -> row_with_id (id s) table = Some s.
Proof.
  unfold row_with_id.
  induction table as [|r table IH]; simpl; intros Hnd HIn; [tauto|].
  inversion Hnd as [|? ? Hfresh Hnd']; subst.
  destruct HIn as [->|HIn].
  - now rewrite Nat.eqb_refl.
  - destruct (Nat.eqb_spec (id r) (id s)) as [E|_]; [|auto].
    exfalso. apply Hfresh. rewrite E. now apply in_map.
Qed.

Lemma NoDup_ids_filter (f : Submission -> bool) table :
  NoDup (map id table) -> NoDup (map id (filter f table)).
Proof.
  induction table as [|r table IH]; simpl; intros Hnd; [constructor|].
  inversion Hnd as [|? ? Hfresh Hnd']; subst.
  destruct (f r); simpl; [|auto].
  constructor; [|auto].
  intros HIn. apply Hfresh.
  apply in_map_iff in HIn as (s & Es & Hs). apply filter_In in Hs as [Hs _].
  rewrite <- Es. now apply in_map.
Qed.

Lemma handleBatchSubmission_rows (w : W) submissionIds :
  let submissions :=
    filter (fun s => existsb (Nat.eqb (id s)) submissionIds) (rows w) in
  let answers := ledger_answers (map payload submissions) (ledger w) in
  handleBatchSubmission submissionIds w
  = (inr tt,
     mkWorld
       (update_rows submissions 0 (map outcome_of (fst answers)) (clock w) (rows w))
       (next_id w) (queue w) (snd answers) (clock w)).
Proof.
  intros submissions answers.
  unfold handleBatchSubmission, bind at 1, findOne_by_id, findByIds, try_catch, bind.
  fold submissions. unfold submitBatch.
  rewrite submitBatch_loop_answers. fold answers.
  rewrite update_loop_rows. reflexivity.
Qed.

(** C6.  For a submit-batch job over a table with distinct ids: the ledger
    batch call answers one outcome per payload, in the order of the
    payloads (a reference where the ledger accepted the payload, the absent
    marker where it failed); the handler returns normally; the record at a
    position holding a reference is stored COMPLETED with that reference,
    and the record at a position holding the absent marker is stored
    FAILED with its retry count untouched.  The job is not reported failed
    and the ledger is called once per payload, so nothing is retried. *)
Theorem handleBatchSubmission_outcomes (w : W) (submissionIds : list Id) :
  unique_ids w ->
  let submissions :=
    filter (fun s => existsb (Nat.eqb (id s)) submissionIds) (rows w) in
  let answers := ledger_answers (map payload submissions) (ledger w) in
  let txHashes := map outcome_of (fst answers) in
  submitBatch (map payload submissions) w = (inr txHashes, set_ledger (snd answers) w)
  /\ length txHashes = length submissions
  /\ exists w',
       handleBatchSubmission submissionIds w = (inr tt, w')
       /\ ledger w' = snd answers
       /\ forall k s, nth_error submissions k = Some s ->
            (forall h, nth_error txHashes k = Some (Some h) ->
               row_with_id (id s) (rows w') = Some (completed_with h (clock w) s))
            /\ (nth_error txHashes k = Some None ->
                  row_with_id (id s) (rows w')
                  = Some (set_errorMessage (Some "Batch submission failed")
                            (set_status FAILED s))
                  /\ retryCount (set_errorMessage (Some "Batch submission failed")
                                   (set_status FAILED s)) = retryCount s).
Proof.
  intros Hu submissions answers txHashes.
  apply distinct_NoDup in Hu.
  split.
  { unfold submitBatch. now rewrite submitBatch_loop_answers. }
  split.
  { unfold txHashes, answers.
    now rewrite length_map, ledger_answers_length, length_map. }
  eexists. split; [apply handleBatchSubmission_rows|]. split; [reflexivity|].
  intros k s Hk. cbn [rows].
  fold submissions. fold answers. fold txHashes.
  assert (row_with_id (id s) (update_rows submissions 0 txHashes (clock w) (rows w))
          = Some (batch_result (clock w) (nth_error txHashes k) s)) as Hrow.
  { apply (update_rows_nth submissions 0 txHashes (clock w) (rows w)).
    - now apply NoDup_ids_filter.
    - intros s0 H0. apply filter_In in H0 as [H0 _]. now apply unique_row.
    - exact Hk. }
  split.
  - intros h Hh. rewrite Hrow, Hh. unfold batch_result, truthy.
    assert (h <> "") as Hne.
    { apply nth_error_In in Hh. unfold txHashes in Hh.
      apply in_map_iff in Hh as ([msg|h'] & Eo & HIn); simpl in Eo; [discriminate|].
      injection Eo as ->.
      eapply ledger_answers_hash_nonempty; exact HIn. }
    destruct (String.eqb_spec h ""); [contradiction | reflexivity].
  - intros Hn. rewrite Hrow, Hn. split; reflexivity.
Qed.

(** ** One processor step on the other rows *)

Lemma handleSingleSubmission_other (w : W) i j :
  j <> i ->
  row_with_id j (rows (snd (handleSingleSubmission i w))) = row_with_id j (rows w).
Proof.
  intros Hj.
  destruct (row_with_id i (rows w)) as [s|] eqn:E.
  - destruct (row_with_id_some _ _ E) as [Hid _].
    rewrite (handleSingleSubmission_found _ _ E).
    destruct (submitTransaction (payload s) (ledger w)) as [[msg|h] l'];
      [destruct (maxRetries s <=? S (retryCount s))%nat|]; cbn [snd rows];
      rewrite row_with_id_replace; cbn [id completed_with failed_with set_status
        set_errorMessage set_retryCount set_completedAt set_transactionHash];
      rewrite Hid; destruct (Nat.eqb_spec i j); congruence.
  - now rewrite (handleSingleSubmission_unknown _ _ E).
Qed.

Lemma process_unreferenced (w : W) (j : Job) i :
  references j i = false ->
  row_with_id i (rows (snd (process j w))) = row_with_id i (rows w).
Proof.
  destruct j as [submissionId|submissionIds]; simpl; intros Hr.
  - apply handleSingleSubmission_other.
    apply Nat.eqb_neq in Hr. congruence.
  - rewrite handleBatchSubmission_rows. cbn [snd rows].
    apply update_rows_other.
    intros HIn. apply in_map_iff in HIn as (s & Es & Hs).
    apply filter_In in Hs as [_ Hs]. rewrite Es in Hs. congruence.
Qed.

(** C2, as amended.  The processor reads no status before it works on a
    record.  A Completed or Failed submission keeps its row through every
    processor step whose job does not reference it.  A job that references
    it is handled as for any other record.  A submit-single job, a
    redelivery included, calls the ledger once more with the record's
    payload: if the ledger answers a reference the row is stored COMPLETED
    with the new reference; if it fails and retryCount + 1 reaches
    maxRetries the row is stored FAILED with retryCount + 1; if it fails
    below that, the job is reported failed to the queue runtime; no other
    row changes.  A submit-batch job that lists the record sends its
    payload with the batch and stores the row COMPLETED with the new
    reference, or FAILED, with the reference and retry count it had, when
    its position holds the absent marker. *)
Theorem terminal_record_is_processed_again (w : W) (i : Id) (s : Submission) :
  unique_ids w ->
  row_with_id i (rows w) = Some s ->
  is_terminal (status s) = true ->
  (forall j, references j i = false ->
     row_with_id i (rows (snd (process j w))) = Some s)
  /\ (let result := process (submit_single i) w in
      ledger (snd result) = snd (submitTransaction (payload s) (ledger w))
      /\ match fst (submitTransaction (payload s) (ledger w)) with
         | inr txHash =>
             fst result = inr tt
             /\ row_with_id i (rows (snd result))
                = Some (completed_with txHash (clock w) s)
         | inl msg =>
             if (maxRetries s <=? S (retryCount s))%nat
             then fst result = inr tt
                  /\ row_with_id i (rows (snd result)) = Some (failed_with msg s)
             else exists e, fst result = inl e
         end
      /\ forall j, j <> i ->
           row_with_id j (rows (snd result)) = row_with_id j (rows w))
  /\ (forall submissionIds, references (submit_batch submissionIds) i = true ->
      let submissions :=
        filter (fun r => existsb (Nat.eqb (id r)) submissionIds) (rows w) in
      let answers := ledger_answers (map payload submissions) (ledger w) in
      let txHashes := map outcome_of (fst answers) in
      let result := process (submit_batch submissionIds) w in
      fst result = inr tt
      /\ ledger (snd result) = snd answers
      /\ exists k,
           nth_error submissions k = Some s
           /\ (forall h, nth_error txHashes k = Some (Some h) ->
                 row_with_id i (rows (snd result))
                 = Some (completed_with h (clock w) s))
           /\ (nth_error txHashes k = Some None ->
                 row_with_id i (rows (snd result))
                 = Some (set_errorMessage (Some "Batch submission failed")
                           (set_status FAILED s)))).
Proof.
  intros Hu Hrow _.
  destruct (row_with_id_some _ _ Hrow) as [Hid HIn].
  split; [|split].
  - intros j Hj. now rewrite process_unreferenced.
  - intros result. unfold result. cbn [process].
    split; [|split].
    + rewrite (handleSingleSubmission_found _ _ Hrow).
      destruct (submitTransaction (payload s) (ledger w)) as [[msg|h] l'];
        [destruct (maxRetries s <=? S (retryCount s))%nat|]; reflexivity.
    + rewrite (handleSingleSubmission_found _ _ Hrow).
      destruct (submitTransaction (payload s) (ledger w)) as [[msg|h] l'];
        [destruct (maxRetries s <=? S (retryCount s))%nat|]; cbn [fst snd rows].
      * split; [reflexivity|].
        rewrite row_with_id_replace, Hrow. cbn [id failed_with set_status
          set_errorMessage set_retryCount]. now rewrite Hid, Nat.eqb_refl.
      * eexists. reflexivity.
      * split; [reflexivity|].
        rewrite row_with_id_replace, Hrow. cbn [id completed_with set_status
          set_completedAt set_transactionHash]. now rewrite Hid, Nat.eqb_refl.
    + intros j Hj. now apply handleSingleSubmission_other.
  - intros ids Hr submissions answers txHashes result.
    unfold result. cbn [process references] in *.
    rewrite handleBatchSubmission_rows. cbn [fst snd rows ledger].
    fold submissions. fold answers. fold txHashes.
    split; [reflexivity|]. split; [reflexivity|].
    apply distinct_NoDup in Hu.
    assert (In s submissions) as Htodo.
    { apply filter_In. split; [assumption|]. rewrite Hid.
      apply existsb_exists in Hr as (x & Hx & Ex). apply Nat.eqb_eq in Ex. subst x.
      apply existsb_exists. exists i. split; [assumption | apply Nat.eqb_refl]. }
    apply In_nth_error in Htodo as [k Hk].
    exists k. split; [exact Hk|].
    assert (row_with_id i (update_rows submissions 0 txHashes (clock w) (rows w))
            = Some (batch_result (clock w) (nth_error txHashes k) s)) as Hafter.
    { rewrite <- Hid.
      apply (update_rows_nth submissions 0 txHashes (clock w) (rows w)).
      - now apply NoDup_ids_filter.
      - intros s0 H0. apply filter_In in H0 as [H0 _]. now apply unique_row.
      - exact Hk. }
    split.
    + intros h Hh. rewrite Hafter, Hh. unfold batch_result, truthy.
      assert (h <> "") as Hne.
      { apply nth_error_In in Hh. unfold txHashes in Hh.
        apply in_map_iff in Hh as ([msg|h'] & Eo & Ha); simpl in Eo; [discriminate|].
        injection Eo as ->.
        eapply ledger_answers_hash_nonempty; exact Ha. }
      destruct (String.eqb_spec h ""); [contradiction | reflexivity].
    + intros Hn. rewrite Hafter, Hn. reflexivity.
Qed.

(** ** What a step may store *)

Lemma handleSingleSubmission_stores (w : W) i s :
  row_with_id i (rows w) = Some s ->
  exists s',
    rows (snd (handleSingleSubmission i w)) = replace_row s' (rows w)
    /\ ((exists h now, s' = completed_with h now s)
        \/ (exists msg, s' = failed_with msg s)
        \/ s' = set_status PROCESSING s).
Proof.
  intros Hrow. rewrite (handleSingleSubmission_found _ _ Hrow).
  destruct (submitTransaction (payload s) (ledger w)) as [[msg|h] l'];
    [destruct (maxRetries s <=? S (retryCount s))%nat|];
    eexists; (split; [reflexivity|]); eauto.
Qed.

(** C7, as amended.  After every processor step a Completed submission
    has a transaction reference, provided that held before the step.  The
    converse holds where the reference is stored, not afterwards: a row
    that holds a reference without being Completed is a row that held that
    reference before the step, which the step stored again as Processing
    or Failed without clearing it. *)
Theorem completed_has_hash_preserved (w : W) (j : Job) :
  (forall s, In s (rows w) -> completed_has_hash s) ->
  forall s', In s' (rows (snd (process j w))) ->
    completed_has_hash s'
    /\ (transactionHash s' <> None ->
        status s' = COMPLETED
        \/ exists s, In s (rows w) /\ id s = id s'
                     /\ transactionHash s = transactionHash s').
Proof.
  intros Hinv s' HIn.
  assert (In s' (rows w)
          \/ (exists s, In s (rows w)
                /\ ((exists h now, s' = completed_with h now s)
                    \/ (status s' <> COMPLETED /\ id s' = id s
                        /\ transactionHash s' = transactionHash s)))) as Hcases.
  { destruct j as [i|ids]; cbn [process] in HIn.
    - destruct (row_with_id i (rows w)) as [s|] eqn:E.
      + destruct (handleSingleSubmission_stores _ _ E) as (x & Hx & Hform).
        rewrite Hx in HIn. apply replace_row_in in HIn as [->|HIn]; [|now left].
        right. exists s. split; [exact (proj2 (row_with_id_some _ _ E))|].
        destruct Hform as [(h & now & ->)|[(msg & ->)| ->]]; [left; eauto| |];
          right; repeat split; discriminate.
      + rewrite (handleSingleSubmission_unknown _ _ E) in HIn. now left.
    - rewrite handleBatchSubmission_rows in HIn. cbn [snd rows] in HIn.
      apply update_rows_in in HIn as [HIn|(s & tx & Hs & ->)]; [now left|].
      right. exists s. apply filter_In in Hs as [Hs _]. split; [exact Hs|].
      unfold batch_result. destruct (truthy tx) as [h|];
        [left; do 2 eexists; reflexivity|].
      right; repeat split; discriminate. }
  destruct Hcases as [Hold|(s & Hs & [(h & now & ->)|(Hst & Hid & Hh)])].
  - split; [now apply Hinv|]. intros _. right. exists s'. auto.
  - split; [intros _; discriminate|]. intros _. now left.
  - split; [intros C; contradiction|]. intros _. right. exists s. auto.
Qed.

(** ** Deliveries that all fail *)

Lemma failed_delivery_below_ceiling (w : W) i s msg l' :
  row_with_id i (rows w) = Some s ->
  submitTransaction (payload s) (ledger w) = (inl msg, l') ->
  S (retryCount s) < maxRetries s ->
  handleSingleSubmission i w
  = (inl (Error (retry_message (backoff_delay (S (retryCount s))))),
     mkWorld (replace_row (set_status PROCESSING s) (rows w))
       (next_id w) (queue w) l' (clock w)).
Proof.
  intros Hrow Hfail Hlt.
  rewrite (handleSingleSubmission_found _ _ Hrow), Hfail.
  destruct (Nat.leb_spec (maxRetries s) (S (retryCount s))); [lia | reflexivity].
Qed.

(** However often the job is delivered, a record whose retry count is two
    or more below its ceiling stays PROCESSING with that retry count when
    the ledger fails every time: the incremented count is never saved. *)
Lemma failing_deliveries_never_reach_failed :
  (forall p (l : L), exists msg l', submitTransaction p l = (inl msg, l')) ->
  forall n (w : W) i s,
    row_with_id i (rows w) = Some s ->
    S (retryCount s) < maxRetries s ->
    row_with_id i (rows (deliveries (S n) i w)) = Some (set_status PROCESSING s).
Proof.
  intros Hdown n. induction n as [|n IH]; intros w i s Hrow Hlt.
  - destruct (Hdown (payload s) (ledger w)) as (msg & l' & Hfail).
    destruct (row_with_id_some _ _ Hrow) as [Hid _].
    cbn [deliveries].
    rewrite (failed_delivery_below_ceiling _ _ Hrow Hfail Hlt). cbn [snd rows].
    rewrite row_with_id_replace, Hrow. cbn [id set_status].
    now rewrite Hid, Nat.eqb_refl.
  - destruct (Hdown (payload s) (ledger w)) as (msg & l' & Hfail).
    destruct (row_with_id_some _ _ Hrow) as [Hid _].
    change (deliveries (S (S n)) i w)
      with (deliveries (S n) i (snd (handleSingleSubmission i w))).
    rewrite (failed_delivery_below_ceiling _ _ Hrow Hfail Hlt). cbn [snd].
    apply (IH _ i (set_status PROCESSING s)).
    + cbn [rows]. rewrite row_with_id_replace, Hrow. cbn [id set_status].
      now rewrite Hid, Nat.eqb_refl.
    + exact Hlt.
Qed.

(** ** The primary key is an invariant of the engine *)

Lemma process_keeps_ids (w : W) (j : Job) :
  map id (rows (snd (process j w))) = map id (rows w)
  /\ next_id (snd (process j w)) = next_id w.
Proof.
  destruct j as [i|ids]; cbn [process].
  - destruct (row_with_id i (rows w)) as [s|] eqn:E.
    + rewrite (handleSingleSubmission_found _ _ E).
      destruct (submitTransaction (payload s) (ledger w)) as [[msg|h] l'];
        [destruct (maxRetries s <=? S (retryCount s))%nat|]; cbn [snd rows next_id];
        now rewrite replace_row_ids.
    + now rewrite (handleSingleSubmission_unknown _ _ E).
  - rewrite handleBatchSubmission_rows. cbn [snd rows next_id].
    now rewrite update_rows_ids.
Qed.

Lemma store_ok_process (w : W) (j : Job) : store_ok w -> store_ok (snd (process j w)).
Proof.
  unfold store_ok, unique_ids.
  destruct (process_keeps_ids w j) as [-> ->]. tauto.
Qed.

Lemma store_ok_createSubmission (w : W) dto :
  store_ok w -> store_ok (snd (createSubmission dto w)).
Proof.
  intros [Hu Hb].
  destruct (row_with_key (dto_idempotencyKey dto) (rows w)) as [e|] eqn:E.
  - rewrite (createSubmission_conflict _ _ E). now split.
  - rewrite (createSubmission_fresh _ _ E). cbn [snd rows next_id].
    unfold store_ok, unique_ids in *. cbn [rows next_id].
    rewrite map_app. cbn [map id]. split.
    + apply distinct_NoDup. apply distinct_NoDup in Hu.
      apply NoDup_app; [assumption | repeat constructor; simpl; tauto |].
      intros i Hi [<-|[]].
      rewrite Forall_forall in Hb. specialize (Hb _ Hi). lia.
    + apply Forall_app. split.
      * eapply Forall_impl; [|exact Hb]. simpl. intros; lia.
      * repeat constructor.
Qed.

Lemma store_ok_createBatch_loop dtos : forall acc (w : W),
  store_ok w -> store_ok (snd (createBatch_loop dtos acc w)).
Proof.
  induction dtos as [|d dtos IH]; intros acc w Hok; simpl; [exact Hok|].
  unfold bind.
  pose proof (store_ok_createSubmission d Hok) as H1.
  destruct (createSubmission d w) as [[e|s] w1]; [exact H1|].
  apply IH. exact H1.
Qed.

Lemma store_ok_createBatch (w : W) dtos :
  store_ok w -> store_ok (snd (createBatch dtos w)).
Proof.
  intros Hok. unfold createBatch, bind.
  pose proof (store_ok_createBatch_loop dtos [] Hok) as H1.
  destruct (createBatch_loop dtos [] w) as [[e|subs] w1]; [exact H1|].
  exact H1.
Qed.

(** * Further properties of the engine *)

(** ** Creation and the read paths *)

Lemma row_with_key_last key (table : list Submission) s :
  row_with_key key table = None -> idempotencyKey s = key ->
  row_with_key key (table ++ [s]) = Some s.
Proof.
  unfold row_with_key. intros Hnone Hk.
  induction table as [|r table IH]; simpl in *.
  - now rewrite Hk, String.eqb_refl.
  - destruct (String.eqb (idempotencyKey r) key); [discriminate | auto].
Qed.

Lemma row_with_id_last (table : list Submission) s :
  Forall (fun i => i < id s) (map id table) ->
  row_with_id (id s) (table ++ [s]) = Some s.
Proof.
  unfold row_with_id. intros Hb.
  induction table as [|r table IH]; simpl in *.
  - now rewrite Nat.eqb_refl.
  - inversion Hb as [|? ? Hr Hb']; subst.
    destruct (Nat.eqb_spec (id r) (id s)); [lia | auto].
Qed.

(** X2.  What was created can be read back: after a successful
    [createSubmission] on a store with a sound primary key, [getSubmission]
    with the new id and [getByIdempotencyKey] with the key both answer the
    created record, the listing of PENDING submissions contains it, and its
    submit-single job is in the queue. *)
Theorem created_submission_is_read_back (w w' : W) dto s :
  store_ok w ->
  createSubmission dto w = (inr s, w') ->
  getSubmission (id s) w' = (inr s, w')
  /\ getByIdempotencyKey (dto_idempotencyKey dto) w' = (inr (Some s), w')
  /\ (exists found, listSubmissions (Some PENDING) w' = (inr found, w') /\ In s found)
  /\ In (submit_single (id s)) (queue w').
Proof.
  intros [_ Hb] Hc.
  destruct (row_with_key (dto_idempotencyKey dto) (rows w)) as [e|] eqn:E.
  { rewrite (createSubmission_conflict _ _ E) in Hc. discriminate. }
  rewrite (createSubmission_fresh _ _ E) in Hc. cbv zeta in Hc.
  injection Hc as <- <-.
  split; [|split; [|split]].
  - unfold getSubmission, bind, findOne_by_id. cbn [rows].
    now rewrite row_with_id_last.
  - unfold getByIdempotencyKey, findOne_by_idempotencyKey. cbn [rows].
    now rewrite row_with_key_last.
  - eexists. split; [reflexivity|]. cbn [rows].
    apply filter_In. split; [apply in_or_app; right; now left | reflexivity].
  - cbn [queue id]. apply in_or_app. right. now left.
Qed.

(** ** Processor steps *)

(** X3.  A job none of whose ids is stored is dropped: the handler returns
    normally, calls no ledger and writes nothing.  This covers the
    submit-single job of an unknown id, a submit-batch job of unknown ids
    and the submit-batch job of an empty batch. *)
Theorem process_unknown_ids_is_noop (w : W) (j : Job) :
  (forall i, references j i = true -> row_with_id i (rows w) = None) ->
  process j w = (inr tt, w).
Proof.
  destruct j as [i|ids]; cbn [process references]; intros Hnone.
  - apply handleSingleSubmission_unknown. apply Hnone. apply Nat.eqb_refl.
  - rewrite handleBatchSubmission_rows.
    assert (filter (fun s => existsb (Nat.eqb (id s)) ids) (rows w) = []) as ->.
    { assert (forall table, (forall s, In s table -> In s (rows w)) ->
                filter (fun s => existsb (Nat.eqb (id s)) ids) table = []) as Hall.
      { induction table as [|r table IH]; intros Hsub; simpl; [reflexivity|].
        destruct (existsb (Nat.eqb (id r)) ids) eqn:Er.
        - exfalso.
          assert (existsb (Nat.eqb (id r)) ids = true) as Er' by exact Er.
          apply existsb_exists in Er' as (x & Hx & Ex). apply Nat.eqb_eq in Ex. subst x.
          assert (row_with_id (id r) (rows w) = None) as Hr.
          { apply Hnone. apply existsb_exists. exists (id r).
            split; [assumption | apply Nat.eqb_refl]. }
          unfold row_with_id in Hr.
          pose proof (find_none _ _ Hr r (Hsub r (or_introl eq_refl))) as C.
          simpl in C. rewrite Nat.eqb_refl in C. discriminate.
        - apply IH. intros s Hs. apply Hsub. now right. }
      apply Hall. auto. }
    simpl. destruct w; reflexivity.
Qed.

Lemma replace_row_fixed s' table :
  (forall s, row_with_id (id s') table = Some s -> fixed_columns s' = fixed_columns s) ->
  map fixed_columns (replace_row s' table) = map fixed_columns table.
Proof.
  unfold row_with_id.
  induction table as [|r table IH]; simpl; intros Hsame; [reflexivity|].
  destruct (id r =? id s')%nat; simpl.
  - now rewrite (Hsame r eq_refl).
  - now rewrite IH.
Qed.

Lemma update_rows_fixed todo : forall i txHashes now table,
  NoDup (map id todo) ->
  (forall s, In s todo -> row_with_id (id s) table = Some s) ->
  map fixed_columns (update_rows todo i txHashes now table) = map fixed_columns table.
Proof.
  induction todo as [|s0 todo IH]; intros i txHashes now table Hnd Hrows; simpl;
    [reflexivity|].
  simpl in Hnd. inversion Hnd as [|? ? Hfresh Hnd']; subst.
  rewrite IH; [| assumption |].
  - apply replace_row_fixed. rewrite batch_result_id.
    rewrite (Hrows s0 (or_introl eq_refl)). intros s [= <-].
    unfold batch_result. destruct (truthy (nth_error txHashes i)); reflexivity.
  - intros s Hs. rewrite row_with_id_replace, batch_result_id.
    destruct (Nat.eqb_spec (id s0) (id s)) as [E|_].
    + exfalso. apply Hfresh. rewrite E. now apply in_map.
    + apply Hrows. now right.
Qed.

Lemma process_rows_fixed (w : W) (j : Job) :
  unique_ids w ->
  map fixed_columns (rows (snd (process j w))) = map fixed_columns (rows w).
Proof.
  intros Hu. apply distinct_NoDup in Hu.
  destruct j as [i|ids]; cbn [process].
  - destruct (row_with_id i (rows w)) as [s|] eqn:E.
    + destruct (row_with_id_some _ _ E) as [Hid _].
      rewrite (handleSingleSubmission_found _ _ E).
      destruct (submitTransaction (payload s) (ledger w)) as [[msg|h] l'];
        [destruct (maxRetries s <=? S (retryCount s))%nat|];
        cbn [snd rows];
        apply replace_row_fixed;
        cbn [id completed_with failed_with set_status set_errorMessage
               set_retryCount set_completedAt set_transactionHash];
        rewrite Hid, E; intros s0 [= <-]; reflexivity.
    + now rewrite (handleSingleSubmission_unknown _ _ E).
  - rewrite handleBatchSubmission_rows. cbn [snd rows].
    apply update_rows_fixed.
    + now apply NoDup_ids_filter.
    + intros s Hs. apply filter_In in Hs as [Hs _]. now apply unique_row.
Qed.

Lemma process_keeps_queue (w : W) (j : Job) :
  queue (snd (process j w)) = queue w /\ clock (snd (process j w)) = clock w.
Proof.
  destruct j as [i|ids]; cbn [process].
  - destruct (row_with_id i (rows w)) as [s|] eqn:E.
    + rewrite (handleSingleSubmission_found _ _ E).
      destruct (submitTransaction (payload s) (ledger w)) as [[msg|h] l'];
        [destruct (maxRetries s <=? S (retryCount s))%nat|]; split; reflexivity.
    + rewrite (handleSingleSubmission_unknown _ _ E). split; reflexivity.
  - rewrite handleBatchSubmission_rows. split; reflexivity.
Qed.

Lemma fixed_lookup (t1 : list Submission) : forall t2 i,
  map fixed_columns t1 = map fixed_columns t2 ->
  option_map fixed_columns (row_with_id i t1)
  = option_map fixed_columns (row_with_id i t2).
Proof.
  unfold row_with_id.
  induction t1 as [|r1 t1 IH]; intros [|r2 t2] i Hfix; simpl in *;
    try discriminate; [reflexivity|].
  pose proof (f_equal (@hd _ (fixed_columns r1)) Hfix) as Hhead.
  pose proof (f_equal (@tl _) Hfix) as Htail. cbn [hd tl] in Hhead, Htail.
  assert (id r1 = id r2) as Hid by (unfold fixed_columns in Hhead; congruence).
  rewrite Hid.
  destruct (id r2 =? i)%nat; [simpl; now rewrite Hhead | now apply IH].
Qed.

(** X4.  A processor step writes bookkeeping columns only.  For every id,
    the row with that id is there after the step exactly when it was
    there before, with the same id, idempotency key, payload and retry
    ceiling; the number of rows stays; the step hands out no id and adds
    no job to the queue: the retry it asks for is left to the queue
    runtime. *)
Theorem process_keeps_fixed_columns (w : W) (j : Job) :
  unique_ids w ->
  (forall i,
     option_map fixed_columns (row_with_id i (rows (snd (process j w))))
     = option_map fixed_columns (row_with_id i (rows w)))
  /\ length (rows (snd (process j w))) = length (rows w)
  /\ queue (snd (process j w)) = queue w
  /\ next_id (snd (process j w)) = next_id w
  /\ clock (snd (process j w)) = clock w.
Proof.
  intros Hu.
  destruct (process_keeps_queue w j) as [Hq Hc].
  destruct (process_keeps_ids w j) as [Hids Hn].
  split; [|split; [|auto]].
  - intros i. apply fixed_lookup. now apply process_rows_fixed.
  - now rewrite <- (length_map id), Hids, length_map.
Qed.

(** X5.  Bookkeeping moves one way.  Through a processor step a stored
    record stays stored, its retry count stays or grows by one, and a
    transaction hash or completion time it holds is replaced at most,
    never cleared. *)
Theorem process_bookkeeping_monotone (w : W) (j : Job) (i : Id) (s : Submission) :
  unique_ids w ->
  row_with_id i (rows w) = Some s ->
  exists s',
    row_with_id i (rows (snd (process j w))) = Some s'
    /\ retryCount s <= retryCount s' <= S (retryCount s)
    /\ (transactionHash s <> None -> transactionHash s' <> None)
    /\ (completedAt s <> None -> completedAt s' <> None).
Proof.
  intros Hu Hrow.
  destruct (references j i) eqn:Hr.
  2:{ exists s. rewrite (process_unreferenced _ _ _ Hr). repeat split; auto. }
  destruct (row_with_id_some _ _ Hrow) as [Hid HIn].
  destruct j as [i0|ids]; cbn [process references] in *.
  - apply Nat.eqb_eq in Hr. subst i0.
    rewrite (handleSingleSubmission_found _ _ Hrow).
    destruct (submitTransaction (payload s) (ledger w)) as [[msg|h] l'];
      [destruct (maxRetries s <=? S (retryCount s))%nat|];
      cbn [snd rows]; eexists;
      (split; [rewrite row_with_id_replace, Hrow;
               cbn [id completed_with failed_with set_status set_errorMessage
                      set_retryCount set_completedAt set_transactionHash];
               rewrite Hid, Nat.eqb_refl; reflexivity|]);
      simpl; repeat split; auto; try lia; discriminate.
  - apply distinct_NoDup in Hu.
    rewrite handleBatchSubmission_rows. cbn [snd rows].
    set (todo := filter (fun s0 => existsb (Nat.eqb (id s0)) ids) (rows w)).
    assert (In s todo) as Htodo.
    { apply filter_In. split; [assumption|]. rewrite Hid.
      apply existsb_exists in Hr as (x & Hx & Ex). apply Nat.eqb_eq in Ex. subst x.
      apply existsb_exists. exists i. split; [assumption | apply Nat.eqb_refl]. }
    apply In_nth_error in Htodo as [k Hk].
    eexists. split.
    + rewrite <- Hid. eapply update_rows_nth; [| | exact Hk].
      * now apply NoDup_ids_filter.
      * intros s0 H0. apply filter_In in H0 as [H0 _]. now apply unique_row.
    + unfold batch_result.
      destruct (truthy _); simpl; repeat split; auto; try lia; discriminate.
Qed.

(** X6.  A submit-batch job is read as a set of ids: the handler loads the
    rows whose id occurs in the job and works through them in the order of
    the table, so two jobs listing the same ids, in any order and with any
    repetition, have the same effect. *)
Theorem handleBatchSubmission_reads_ids_as_set (w : W) (ids ids' : list Id) :
  (forall i, In i ids <-> In i ids') ->
  handleBatchSubmission ids w = handleBatchSubmission ids' w.
Proof.
  intros Hsame.
  rewrite !handleBatchSubmission_rows.
  assert (forall s, existsb (Nat.eqb (id s)) ids = existsb (Nat.eqb (id s)) ids') as Hext.
  { intros s.
    destruct (existsb (Nat.eqb (id s)) ids) eqn:E1;
      destruct (existsb (Nat.eqb (id s)) ids') eqn:E2; try reflexivity; exfalso.
    - apply existsb_exists in E1 as (x & Hx & Ex).
      assert (existsb (Nat.eqb (id s)) ids' = true) as C
        by (apply existsb_exists; exists x; split; [now apply Hsame | assumption]).
      congruence.
    - apply existsb_exists in E2 as (x & Hx & Ex).
      assert (existsb (Nat.eqb (id s)) ids = true) as C
        by (apply existsb_exists; exists x; split; [now apply Hsame | assumption]).
      congruence. }
  now rewrite (filter_ext _ _ Hext).
Qed.

(** ** Runs of a deployed engine *)

Lemma after_events_invariant (P : W -> Prop) :
  (forall w e, P w -> P (after_event w e)) ->
  forall es w, P w -> P (after_events es w).
Proof.
  intros Hstep es. unfold after_events.
  induction es as [|e es IH]; intros w Hw; simpl; [exact Hw|].
  apply IH. now apply Hstep.
Qed.

Lemma createBatch_loop_invariant (P : W -> Prop) :
  (forall dto w, P w -> P (snd (createSubmission dto w))) ->
  forall dtos acc w, P w -> P (snd (createBatch_loop dtos acc w)).
Proof.
  intros Hstep dtos.
  induction dtos as [|d dtos IH]; intros acc w Hw; simpl; [exact Hw|].
  unfold bind. pose proof (Hstep d w Hw) as H1.
  destruct (createSubmission d w) as [[e|s] w1]; [exact H1 | now apply IH].
Qed.

(** The world [createBatch] leaves: the world of its loop, with the
    submit-batch job added when the loop went through. *)
Lemma createBatch_world (w : W) dtos :
  snd (createBatch dtos w)
  = match createBatch_loop dtos [] w with
    | (inl _, w1) => w1
    | (inr submissions, w1) =>
        mkWorld (rows w1) (next_id w1)
          (queue w1 ++ [submit_batch (map id submissions)]) (ledger w1) (clock w1)
    end.
Proof.
  unfold createBatch, bind.
  destruct (createBatch_loop dtos [] w) as [[e|submissions] w1]; reflexivity.
Qed.

Lemma SubmitterController_world (w : W) (r : Request) :
  snd (SubmitterController r w)
  = match r with
    | POST_submissions dto => snd (createSubmission dto w)
    | POST_submissions_batch dtos => snd (createBatch dtos w)
    | _ => w
    end.
Proof.
  destruct r as [dto|dtos|st|i|key]; unfold SubmitterController, bind.
  - destruct (createSubmission dto w) as [[e|s] w1]; reflexivity.
  - destruct (createBatch dtos w) as [[e|l] w1]; reflexivity.
  - destruct st; reflexivity.
  - unfold getSubmission, bind, findOne_by_id.
    destruct (row_with_id i (rows w)); reflexivity.
  - reflexivity.
Qed.

(** *** Keys *)

Lemma keys_sound_unique_ids (w : W) : keys_sound w -> unique_ids w.
Proof.
  intros [Hids _]. unfold unique_ids. apply distinct_NoDup.
  rewrite Hids. apply seq_NoDup.
Qed.

Lemma keys_sound_createSubmission dto (w : W) :
  keys_sound w -> keys_sound (snd (createSubmission dto w)).
Proof.
  intros [Hids Hkeys].
  destruct (row_with_key (dto_idempotencyKey dto) (rows w)) as [e|] eqn:E.
  - rewrite (createSubmission_conflict _ _ E). now split.
  - rewrite (createSubmission_fresh _ _ E). unfold keys_sound. cbn [snd rows next_id].
    rewrite !map_app. cbn [map id idempotencyKey]. split.
    + now rewrite Hids, seq_S.
    + apply NoDup_app; [assumption | repeat constructor; simpl; tauto |].
      intros k Hk [<-|[]].
      apply row_with_key_none in E. rewrite row_with_key_keys in E.
      assert (existsb (String.eqb (dto_idempotencyKey dto))
                (map idempotencyKey (rows w)) = true) as C.
      { apply existsb_exists. eexists. split; [exact Hk | apply String.eqb_refl]. }
      congruence.
Qed.

Lemma keys_of_fixed_columns (t : list Submission) :
  map idempotencyKey t = map (fun c => snd (fst (fst c))) (map fixed_columns t).
Proof. rewrite map_map. reflexivity. Qed.

Lemma keys_sound_after_event (w : W) (e : Event) :
  keys_sound w -> keys_sound (after_event w e).
Proof.
  intros Hk. destruct e as [r|j|t]; cbn [after_event].
  - rewrite SubmitterController_world.
    destruct r as [dto|dtos|st|i|key]; try exact Hk.
    + now apply keys_sound_createSubmission.
    + rewrite createBatch_world.
      pose proof (createBatch_loop_invariant keys_sound
                    keys_sound_createSubmission dtos [] w Hk) as H1.
      destruct (createBatch_loop dtos [] w) as [[x|submissions] w1]; exact H1.
  - pose proof (keys_sound_unique_ids Hk) as Hu.
    destruct Hk as [Hids Hkeys]. unfold keys_sound.
    destruct (process_keeps_ids w j) as [-> ->].
    split; [assumption|].
    now rewrite keys_of_fixed_columns, process_rows_fixed, <- keys_of_fixed_columns.
  - exact Hk.
Qed.

(** X7.  In every state a fresh deployment reaches through requests to
    the controller, job deliveries and the passing of time, no two rows
    share an idempotency key and no two rows share an id, every id in the
    table is one that was handed out, and there are as many rows as ids
    handed out: no row is ever lost or stored twice. *)
Theorem run_keeps_keys_unique (es : list Event) (l : L) (now : Date) :
  NoDup (map idempotencyKey (rows (after_events es (fresh_world l now))))
  /\ NoDup (map id (rows (after_events es (fresh_world l now))))
  /\ Forall (fun i => i < next_id (after_events es (fresh_world l now)))
       (map id (rows (after_events es (fresh_world l now))))
  /\ length (rows (after_events es (fresh_world l now)))
     = next_id (after_events es (fresh_world l now)).
Proof.
  assert (keys_sound (after_events es (fresh_world l now))) as [Hids Hkeys].
  { apply after_events_invariant.
    - intros w e. apply keys_sound_after_event.
    - split; [reflexivity | constructor]. }
  split; [assumption|]. rewrite Hids. split; [apply seq_NoDup|]. split.
  - apply Forall_forall. intros i Hi. apply in_seq in Hi. lia.
  - rewrite <- (length_map id), Hids. apply length_seq.
Qed.

Lemma createSubmission_keeps_keys dto key (w : W) :
  In key (map idempotencyKey (rows w)) ->
  In key (map idempotencyKey (rows (snd (createSubmission dto w)))).
Proof.
  intros HIn.
  destruct (row_with_key (dto_idempotencyKey dto) (rows w)) as [e|] eqn:E.
  - now rewrite (createSubmission_conflict _ _ E).
  - rewrite (createSubmission_fresh _ _ E). cbn [snd rows].
    rewrite map_app. apply in_or_app. now left.
Qed.

Lemma createSubmission_stores_key dto (w : W) :
  In (dto_idempotencyKey dto)
    (map idempotencyKey (rows (snd (createSubmission dto w)))).
Proof.
  destruct (row_with_key (dto_idempotencyKey dto) (rows w)) as [e|] eqn:E.
  - rewrite (createSubmission_conflict _ _ E). cbn [snd].
    unfold row_with_key in E. apply find_some in E as [HIn Hk].
    apply String.eqb_eq in Hk. rewrite <- Hk. now apply in_map.
  - rewrite (createSubmission_fresh _ _ E). cbn [snd rows].
    rewrite map_app. apply in_or_app. right. now left.
Qed.

Lemma key_stays_after_event key (w : W) (e : Event) :
  keys_sound w ->
  In key (map idempotencyKey (rows w)) ->
  In key (map idempotencyKey (rows (after_event w e))).
Proof.
  intros Hk HIn. destruct e as [r|j|t]; cbn [after_event].
  - rewrite SubmitterController_world.
    destruct r as [dto|dtos|st|i|k]; try exact HIn.
    + now apply createSubmission_keeps_keys.
    + rewrite createBatch_world.
      pose proof (createBatch_loop_invariant
                    (fun w => In key (map idempotencyKey (rows w)))
                    (fun dto w => createSubmission_keeps_keys dto key w)
                    dtos [] w HIn) as H1.
      destruct (createBatch_loop dtos [] w) as [[x|submissions] w1]; exact H1.
  - pose proof (keys_sound_unique_ids Hk) as Hu.
    now rewrite keys_of_fixed_columns, process_rows_fixed, <- keys_of_fixed_columns.
  - exact HIn.
Qed.

(** X1.  Idempotency of creation in a run: once a [createSubmission] with
    a key has returned, whether it stored a record or itself met the
    conflict, every [createSubmission] with that key made later, after
    any further requests, job deliveries and time, and whatever its
    payload, throws the conflict and leaves rows, queue and ledger as
    they are. *)
Theorem createSubmission_same_key_again_conflicts
  (before after : list Event) (l : L) (now : Date) dto (p' : Payload) :
  createSubmission (mkDto (dto_idempotencyKey dto) p')
    (after_events after
       (snd (createSubmission dto (after_events before (fresh_world l now)))))
  = (inl (ConflictException
            ("Submission with idempotency key " ++ dto_idempotencyKey dto
             ++ " already exists")),
     after_events after
       (snd (createSubmission dto (after_events before (fresh_world l now))))).
Proof.
  set (w0 := after_events before (fresh_world l now)).
  assert (keys_sound w0) as H0.
  { apply after_events_invariant.
    - intros w e. apply keys_sound_after_event.
    - split; [reflexivity | constructor]. }
  assert (keys_sound (after_events after (snd (createSubmission dto w0)))
          /\ In (dto_idempotencyKey dto)
               (map idempotencyKey
                  (rows (after_events after (snd (createSubmission dto w0))))))
    as [_ Hkey].
  { apply (after_events_invariant
             (fun w => keys_sound w
                       /\ In (dto_idempotencyKey dto) (map idempotencyKey (rows w)))).
    - intros w e [Hk HIn]. split.
      + now apply keys_sound_after_event.
      + now apply key_stays_after_event.
    - split.
      + now apply keys_sound_createSubmission.
      + apply createSubmission_stores_key. }
  assert (existsb (String.eqb (dto_idempotencyKey dto))
            (map idempotencyKey
               (rows (after_events after (snd (createSubmission dto w0))))) = true)
    as Hex.
  { apply existsb_exists. eexists. split; [exact Hkey | apply String.eqb_refl]. }
  apply taken_key_has_row in Hex as [e He].
  exact (createSubmission_conflict _ (mkDto (dto_idempotencyKey dto) p') He).
Qed.

(** *** Retry bookkeeping *)

Lemma never_retried_createSubmission dto (w : W) :
  Forall never_retried (rows w) ->
  Forall never_retried (rows (snd (createSubmission dto w))).
Proof.
  intros Hall.
  destruct (row_with_key (dto_idempotencyKey dto) (rows w)) as [e|] eqn:E.
  - now rewrite (createSubmission_conflict _ _ E).
  - rewrite (createSubmission_fresh _ _ E). cbn [snd rows].
    apply Forall_app. split; [assumption|].
    constructor; [|constructor].
    unfold never_retried; simpl. repeat split; auto; discriminate.
Qed.

Lemma never_retried_process (w : W) (j : Job) :
  Forall never_retried (rows w) ->
  Forall never_retried (rows (snd (process j w))).
Proof.
  rewrite !Forall_forall. intros Hall s' HIn.
  destruct j as [i|ids]; cbn [process] in HIn.
  - destruct (row_with_id i (rows w)) as [s|] eqn:E.
    + destruct (Hall s (proj2 (row_with_id_some _ _ E)))
        as (Hmax & Hrc & Hst & Herr & Hfail).
      rewrite (handleSingleSubmission_found _ _ E) in HIn.
      rewrite Hmax, Hrc in HIn. cbn [Nat.leb] in HIn.
      destruct (submitTransaction (payload s) (ledger w)) as [[msg|h] l'];
        cbn [snd rows] in HIn;
        (apply replace_row_in in HIn as [->|HIn]; [|now apply Hall]);
        unfold never_retried; simpl; repeat split; auto; discriminate.
    + rewrite (handleSingleSubmission_unknown _ _ E) in HIn. now apply Hall.
  - rewrite handleBatchSubmission_rows in HIn. cbn [snd rows] in HIn.
    apply update_rows_in in HIn as [HIn|(s & tx & Hs & ->)]; [now apply Hall|].
    apply filter_In in Hs as [Hs _].
    destruct (Hall s Hs) as (Hmax & Hrc & Hst & Herr & Hfail).
    unfold batch_result. destruct (truthy tx);
      unfold never_retried; simpl; repeat split; auto; discriminate.
Qed.

(** X8.  The retry bookkeeping is never written.  In every state a fresh
    deployment reaches, every row has retry count 0 and retry ceiling 3,
    no row is RETRYING, the only error message stored is the one of the
    batch handler (the message of a ledger error is never stored), and a
    FAILED row was failed by a submit-batch job. *)
Theorem rows_of_a_run_never_retry (es : list Event) (l : L) (now : Date) :
  Forall never_retried (rows (after_events es (fresh_world l now))).
Proof.
  apply (after_events_invariant (fun w => Forall never_retried (rows w))).
  - intros w e Hall. destruct e as [r|j|t]; cbn [after_event].
    + rewrite SubmitterController_world.
      destruct r as [dto|dtos|st|i|key]; try exact Hall.
      * now apply never_retried_createSubmission.
      * rewrite createBatch_world.
        pose proof (createBatch_loop_invariant
                      (fun w => Forall never_retried (rows w))
                      never_retried_createSubmission dtos [] w Hall) as H1.
        destruct (createBatch_loop dtos [] w) as [[x|submissions] w1]; exact H1.
    + now apply never_retried_process.
    + exact Hall.
  - constructor.
Qed.

(** *** Backoff in a run *)

Lemma never_retried_after_event (w : W) (e : Event) :
  Forall never_retried (rows w) -> Forall never_retried (rows (after_event w e)).
Proof.
  intros Hall. destruct e as [r|j|t]; cbn [after_event].
  - rewrite SubmitterController_world.
    destruct r as [dto|dtos|st|i|key]; try exact Hall.
    + now apply never_retried_createSubmission.
    + rewrite createBatch_world.
      pose proof (createBatch_loop_invariant
                    (fun w => Forall never_retried (rows w))
                    never_retried_createSubmission dtos [] w Hall) as H1.
      destruct (createBatch_loop dtos [] w) as [[x|submissions] w1]; exact H1.
  - now apply never_retried_process.
  - exact Hall.
Qed.

(** C9.  The delay computed for a retry count [r] is 2^r times 1000
    milliseconds and grows strictly with [r], for every retry count up to
    1014, the range in which the double the code computes is this integer.
    It is the delay of the post-increment retry count that a failed
    delivery attempt announces when it asks for a retry, printed in full
    as long as it is an integer below 2^53 (a post-increment retry count of
    43 at most).  In a run of a fresh deployment every failed delivery
    attempt is within these ranges and announces that delay. *)
Theorem backoff_delay_exponential :
  (forall r, r <= 1014 -> backoff_delay r = 2 ^ r * 1000)
  /\ (forall r r', r < r' -> r' <= 1014 -> backoff_delay r < backoff_delay r')
  /\ (forall (w : W) i s msg l',
        row_with_id i (rows w) = Some s ->
        submitTransaction (payload s) (ledger w) = (inl msg, l') ->
        S (retryCount s) < maxRetries s ->
        S (retryCount s) <= 43 ->
        2 ^ S (retryCount s) * 1000 < 2 ^ 53
        /\ fst (handleSingleSubmission i w)
           = inl (Error ("Retry needed with delay "
                         ++ show_nat (2 ^ S (retryCount s) * 1000) ++ "ms")))
  /\ (forall (es : list Event) (l : L) (now : Date) i s msg l',
        row_with_id i (rows (after_events es (fresh_world l now))) = Some s ->
        submitTransaction (payload s) (ledger (after_events es (fresh_world l now)))
        = (inl msg, l') ->
        S (retryCount s) <= 43
        /\ fst (handleSingleSubmission i (after_events es (fresh_world l now)))
           = inl (Error ("Retry needed with delay "
                         ++ show_nat (2 ^ S (retryCount s) * 1000) ++ "ms"))).
Proof.
  split; [reflexivity|].
  split; [intros r r' H _; now apply backoff_delay_increasing|].
  split.
  - intros w i s msg l' Hrow Hfail Hlt Hsafe. split.
    + assert (2 ^ S (retryCount s) <= 2 ^ 43) as Hpow
          by (apply Nat.pow_le_mono_r; [discriminate | exact Hsafe]).
      assert (0 < 2 ^ 43) as Hpos
          by (apply Nat.neq_0_lt_0, Nat.pow_nonzero; discriminate).
      replace (2 ^ 53) with (2 ^ 43 * 2 ^ 10)
        by (rewrite <- Nat.pow_add_r; reflexivity).
      replace (2 ^ 10) with 1024 by reflexivity.
      revert Hpow Hpos. generalize (2 ^ 43), (2 ^ S (retryCount s)). intros; nia.
    + rewrite (handleSingleSubmission_found _ _ Hrow), Hfail.
      destruct (Nat.leb_spec (maxRetries s) (S (retryCount s))) as [Hle|_]; [lia|].
      reflexivity.
  - intros es l now i s msg l' Hrow Hfail.
    assert (Forall never_retried (rows (after_events es (fresh_world l now)))) as Hall.
    { apply (after_events_invariant (fun w => Forall never_retried (rows w))).
      - intros w e. apply never_retried_after_event.
      - constructor. }
    rewrite Forall_forall in Hall.
    destruct (Hall s (proj2 (row_with_id_some _ _ Hrow))) as (Hmax & Hrc & _).
    split; [rewrite Hrc; repeat constructor|].
    rewrite (handleSingleSubmission_found _ _ Hrow), Hfail.
    destruct (Nat.leb_spec (maxRetries s) (S (retryCount s))) as [Hle|_]; [lia|].
    reflexivity.
Qed.

(** *** Queue and table *)

Lemma queue_matches_createSubmission dto (w : W) :
  queue_matches_rows w -> queue_matches_rows (snd (createSubmission dto w)).
Proof.
  intros [Hq Hr].
  destruct (row_with_key (dto_idempotencyKey dto) (rows w)) as [e|] eqn:E.
  - rewrite (createSubmission_conflict _ _ E). now split.
  - rewrite (createSubmission_fresh _ _ E). unfold queue_matches_rows.
    cbn [snd rows next_id queue]. split.
    + apply Forall_app. split.
      * eapply Forall_impl; [|exact Hq]. intros j Hj i Hi. specialize (Hj i Hi). lia.
      * constructor; [|constructor]. intros i Hi. simpl in Hi.
        apply Nat.eqb_eq in Hi. lia.
    + apply Forall_app. split.
      * eapply Forall_impl; [|exact Hr]. intros s Hs. apply in_or_app. now left.
      * constructor; [|constructor]. cbn [id]. apply in_or_app. right. now left.
Qed.

Lemma createBatch_loop_ids dtos : forall acc (w : W),
  Forall (fun s => id s < next_id w) acc ->
  match createBatch_loop dtos acc w with
  | (inr submissions, w1) => Forall (fun s => id s < next_id w1) submissions
  | (inl _, _) => True
  end.
Proof.
  induction dtos as [|d dtos IH]; intros acc w Hacc; simpl; [exact Hacc|].
  unfold bind.
  destruct (row_with_key (dto_idempotencyKey d) (rows w)) as [e|] eqn:E.
  - now rewrite (createSubmission_conflict _ _ E).
  - rewrite (createSubmission_fresh _ _ E). cbv zeta. apply IH.
    cbn [next_id]. apply Forall_app. split.
    + eapply Forall_impl; [|exact Hacc]. simpl. intros; lia.
    + constructor; [|constructor]. cbn [id]. lia.
Qed.

Lemma queue_matches_after_event (w : W) (e : Event) :
  queue_matches_rows w -> queue_matches_rows (after_event w e).
Proof.
  intros Hm. destruct e as [r|j|t]; cbn [after_event].
  - rewrite SubmitterController_world.
    destruct r as [dto|dtos|st|i|key]; try exact Hm.
    + now apply queue_matches_createSubmission.
    + rewrite createBatch_world.
      pose proof (createBatch_loop_invariant queue_matches_rows
                    queue_matches_createSubmission dtos [] w Hm) as H1.
      pose proof (@createBatch_loop_ids dtos [] w (Forall_nil _)) as H2.
      destruct (createBatch_loop dtos [] w) as [[x|submissions] w1]; [exact H1|].
      cbn [snd] in H1. destruct H1 as [Hq Hr]. unfold queue_matches_rows.
      cbn [rows next_id queue]. split.
      * apply Forall_app. split; [assumption|].
        constructor; [|constructor]. intros i Hi. simpl in Hi.
        apply existsb_exists in Hi as (x & Hx & Ex). apply Nat.eqb_eq in Ex. subst x.
        apply in_map_iff in Hx as (s & <- & Hs).
        rewrite Forall_forall in H2. now apply H2.
      * eapply Forall_impl; [|exact Hr]. intros s Hs. apply in_or_app. now left.
  - destruct Hm as [Hq Hr]. unfold queue_matches_rows.
    destruct (process_keeps_queue w j) as [-> _].
    destruct (process_keeps_ids w j) as [Hids ->].
    split; [assumption|].
    apply (Forall_map id (fun i => In (submit_single i) (queue w))).
    rewrite Hids. now apply Forall_map.
  - exact Hm.
Qed.

Lemma stored_id_has_row i (table : list Submission) :
  In i (map id table) -> exists s, row_with_id i table = Some s.
Proof.
  unfold row_with_id. induction table as [|r table IH]; simpl; [tauto|].
  intros [<-|HIn].
  - rewrite Nat.eqb_refl. eauto.
  - destruct (id r =? i)%nat; eauto.
Qed.

(** X9.  In every state a fresh deployment reaches, every job the service
    has added to the queue names stored records only: a job is added after
    its records are saved and no row is ever removed, so
    [handleSingleSubmission] does not meet its not-found branch for a job
    of the queue. *)
Theorem queue_of_a_run_matches_rows (es : list Event) (l : L) (now : Date) :
  Forall (fun j => forall i, references j i = true ->
            exists s, row_with_id i (rows (after_events es (fresh_world l now))) = Some s)
    (queue (after_events es (fresh_world l now))).
Proof.
  assert (keys_sound (after_events es (fresh_world l now))) as [Hids _].
  { apply after_events_invariant.
    - intros w e. apply keys_sound_after_event.
    - split; [reflexivity | constructor]. }
  assert (queue_matches_rows (after_events es (fresh_world l now))) as [Hq _].
  { apply after_events_invariant.
    - intros w e. apply queue_matches_after_event.
    - split; constructor. }
  eapply Forall_impl; [|exact Hq]. intros j Hj i Hi.
  apply stored_id_has_row. rewrite Hids. apply in_seq. specialize (Hj i Hi). lia.
Qed.

(** ** A batch and its jobs *)

Lemma ledger_answers_app p1 : forall p2 (l : L),
  snd (ledger_answers (p1 ++ p2) l)
  = snd (ledger_answers p2 (snd (ledger_answers p1 l))).
Proof.
  induction p1 as [|p p1 IH]; intros p2 l; simpl; [reflexivity|].
  destruct (submitTransaction p l) as [a l'].
  specialize (IH p2 l').
  destruct (ledger_answers (p1 ++ p2) l'), (ledger_answers p1 l'). exact IH.
Qed.

Lemma payload_lookup_fixed (t1 : list Submission) : forall t2 i,
  map fixed_columns t1 = map fixed_columns t2 ->
  option_map payload (row_with_id i t1) = option_map payload (row_with_id i t2).
Proof.
  unfold row_with_id.
  induction t1 as [|r1 t1 IH]; intros [|r2 t2] i Hfix; simpl in *;
    try discriminate; [reflexivity|].
  pose proof (f_equal (@hd _ (fixed_columns r1)) Hfix) as Hhead.
  pose proof (f_equal (@tl _) Hfix) as Htail. cbn [hd tl] in Hhead, Htail.
  unfold fixed_columns in Hhead.
  injection Hhead as Hid Hkey Hpay Hmax. rewrite Hid.
  destruct (id r2 =? i)%nat; [simpl; now rewrite Hpay | now apply IH].
Qed.

Lemma filter_payload_fixed (f : Id -> bool) (t1 : list Submission) : forall t2,
  map fixed_columns t1 = map fixed_columns t2 ->
  map payload (filter (fun s => f (id s)) t1)
  = map payload (filter (fun s => f (id s)) t2).
Proof.
  induction t1 as [|r1 t1 IH]; intros [|r2 t2] Hfix; simpl in *;
    try discriminate; [reflexivity|].
  pose proof (f_equal (@hd _ (fixed_columns r1)) Hfix) as Hhead.
  pose proof (f_equal (@tl _) Hfix) as Htail. cbn [hd tl] in Hhead, Htail.
  unfold fixed_columns in Hhead.
  injection Hhead as Hid Hkey Hpay Hmax. rewrite Hid.
  destruct (f (id r2)); simpl; [rewrite Hpay; f_equal|]; now apply IH.
Qed.

Lemma single_delivery_ledger (w : W) i s :
  row_with_id i (rows w) = Some s ->
  ledger (snd (process (submit_single i) w))
  = snd (submitTransaction (payload s) (ledger w)).
Proof.
  intros E. cbn [process]. rewrite (handleSingleSubmission_found _ _ E).
  destruct (submitTransaction (payload s) (ledger w)) as [[msg|h] l'];
    [destruct (maxRetries s <=? S (retryCount s))%nat|]; reflexivity.
Qed.

Lemma single_deliveries_ledger (ss : list Submission) : forall (v : W),
  unique_ids v ->
  (forall s, In s ss ->
     option_map payload (row_with_id (id s) (rows v)) = Some (payload s)) ->
  ledger (after_events (map (fun s => delivery (submit_single (id s))) ss) v)
  = snd (ledger_answers (map payload ss) (ledger v))
  /\ map fixed_columns
       (rows (after_events (map (fun s => delivery (submit_single (id s))) ss) v))
     = map fixed_columns (rows v).
Proof.
  unfold after_events.
  induction ss as [|s ss IH]; intros v Hu Hrows; [simpl; split; reflexivity|].
  cbn [map fold_left ledger_answers].
  change (after_event v (delivery (submit_single (id s))))
    with (snd (process (submit_single (id s)) v)).
  pose proof (process_rows_fixed (submit_single (id s)) Hu) as Hfix.
  destruct (process_keeps_ids v (submit_single (id s))) as [Hids _].
  destruct (row_with_id (id s) (rows v)) as [s0|] eqn:E.
  2:{ specialize (Hrows s (or_introl eq_refl)). rewrite E in Hrows. discriminate. }
  assert (payload s0 = payload s) as Hp.
  { specialize (Hrows s (or_introl eq_refl)). rewrite E in Hrows. now injection Hrows. }
  destruct (IH (snd (process (submit_single (id s)) v))) as [Hl Hf].
  - unfold unique_ids in *. now rewrite Hids.
  - intros s1 H1. rewrite (@payload_lookup_fixed _ _ (id s1) Hfix).
    apply Hrows. now right.
  - split.
    + rewrite Hl, (@single_delivery_ledger _ _ _ E), Hp.
      destruct (submitTransaction (payload s) (ledger v)) as [a l']. cbn [snd].
      destruct (ledger_answers (map payload ss) l'). reflexivity.
    + now rewrite Hf.
Qed.

Lemma new_records_payloads n dtos :
  map payload (new_records n dtos) = map dto_payload dtos.
Proof.
  revert n; induction dtos as [|d dtos IH]; intros n; simpl; [reflexivity|].
  now rewrite IH.
Qed.

Lemma filter_none {A} (f : A -> bool) (l : list A) :
  (forall x, In x l -> f x = false) -> filter f l = [].
Proof.
  induction l as [|a l IH]; simpl; intros H; [reflexivity|].
  rewrite (H a (or_introl eq_refl)). apply IH. intros x Hx. apply H. now right.
Qed.

Lemma filter_all {A} (f : A -> bool) (l : list A) :
  (forall x, In x l -> f x = true) -> filter f l = l.
Proof.
  induction l as [|a l IH]; simpl; intros H; [reflexivity|].
  rewrite (H a (or_introl eq_refl)). f_equal. apply IH. intros x Hx. apply H. now right.
Qed.

(** X10.  Every item of an accepted batch is sent to the ledger twice.
    A [createBatch] without conflict adds one submit-single job per new
    record and one submit-batch job for the same records; once these jobs
    are delivered, the ledger has received the payloads of the batch in
    request order, and then all of them again. *)
Theorem batch_items_reach_the_ledger_twice (w : W) (dtos : list CreateSubmissionDto) :
  store_ok w ->
  all_fresh dtos (map idempotencyKey (rows w)) = true ->
  queue (snd (createBatch dtos w))
  = queue w ++ map submit_single (seq (next_id w) (length dtos))
            ++ [submit_batch (seq (next_id w) (length dtos))]
  /\ ledger (after_events
               (map delivery (map submit_single (seq (next_id w) (length dtos))
                              ++ [submit_batch (seq (next_id w) (length dtos))]))
               (snd (createBatch dtos w)))
     = snd (ledger_answers (map dto_payload dtos ++ map dto_payload dtos) (ledger w)).
Proof.
  intros Hok Hfresh.
  pose proof (store_ok_createBatch dtos Hok) as [Hu1 _].
  set (news := new_records (next_id w) dtos).
  assert (createBatch dtos w
          = (inr news,
             mkWorld (rows w ++ news) (next_id w + length dtos)
               ((queue w ++ map (fun s => submit_single (id s)) news)
                ++ [submit_batch (map id news)]) (ledger w) (clock w))) as Hcb.
  { unfold createBatch, bind. now rewrite (createBatch_loop_fresh _ _ _ Hfresh). }
  rewrite Hcb in *. cbn [snd] in *.
  assert (map id news = seq (next_id w) (length dtos)) as Hids
      by apply new_records_ids.
  assert (map (fun s => submit_single (id s)) news
          = map submit_single (seq (next_id w) (length dtos))) as Hjobs
      by (now rewrite <- Hids, map_map).
  split.
  { cbn [queue]. now rewrite Hjobs, Hids, <- app_assoc. }
  rewrite map_app. unfold after_events. rewrite fold_left_app. cbn [map fold_left].
  rewrite <- Hids at 1. rewrite !map_map.
  match goal with
  | |- ledger (after_event ?v _) = _ => set (v2 := v)
  end.
  destruct (single_deliveries_ledger news
              (v := mkWorld (rows w ++ news) (next_id w + length dtos)
                      ((queue w ++ map (fun s => submit_single (id s)) news)
                       ++ [submit_batch (map id news)]) (ledger w) (clock w)) Hu1)
    as [Hl Hf].
  { intros s Hs. cbn [rows]. rewrite unique_row; [reflexivity | |].
    - apply distinct_NoDup. exact Hu1.
    - apply in_or_app. now right. }
  unfold after_events in Hl, Hf. fold v2 in Hl, Hf. cbn [ledger rows] in Hl, Hf.
  change (after_event v2 (delivery (submit_batch (seq (next_id w) (length dtos)))))
    with (snd (process (submit_batch (seq (next_id w) (length dtos))) v2)).
  cbn [process]. rewrite handleBatchSubmission_rows. cbn [snd ledger].
  rewrite (filter_payload_fixed
             (fun i => existsb (Nat.eqb i) (seq (next_id w) (length dtos))) _ _ Hf).
  rewrite filter_app, filter_none, filter_all.
  - cbn [app]. fold news.
    rewrite Hl, ledger_answers_app.
    unfold news. now rewrite !new_records_payloads.
  - intros s Hs. apply existsb_exists. exists (id s).
    split; [|apply Nat.eqb_refl]. rewrite <- Hids. now apply in_map.
  - intros s Hs. destruct (existsb _ _) eqn:Ex; [|reflexivity]. exfalso.
    apply existsb_exists in Ex as (x & Hx & Exs). apply Nat.eqb_eq in Exs. subst x.
    apply in_seq in Hx. destruct Hok as [_ Hb]. rewrite Forall_forall in Hb.
    specialize (Hb (id s) (in_map id _ _ Hs)). lia.
Qed.

(** ** From request to settlement *)

(** X11.  The path of an accepted request whose payload the ledger takes:
    after [createSubmission] and one delivery of the job it added,
    [getSubmission] answers the record COMPLETED with the hash the ledger
    returned and the time of the delivery, retry count 0, and the ledger
    was called exactly once, with the payload of the request. *)
Theorem accepted_submission_completes (w : W) dto (h : string) (l' : L) :
  store_ok w ->
  row_with_key (dto_idempotencyKey dto) (rows w) = None ->
  submitTransaction (dto_payload dto) (ledger w) = (inr h, l') ->
  In (submit_single (next_id w)) (queue (snd (createSubmission dto w)))
  /\ getSubmission (next_id w)
       (snd (process (submit_single (next_id w)) (snd (createSubmission dto w))))
     = (inr (mkSubmission (next_id w) (dto_idempotencyKey dto) (dto_payload dto)
               COMPLETED (Some h) 0 3 None (Some (clock w))),
        snd (process (submit_single (next_id w)) (snd (createSubmission dto w))))
  /\ ledger (snd (process (submit_single (next_id w)) (snd (createSubmission dto w))))
     = l'.
Proof.
  intros [_ Hb] Hfresh Hledger.
  rewrite (createSubmission_fresh _ _ Hfresh). cbv zeta. cbn [snd queue].
  set (s := mkSubmission (next_id w) (dto_idempotencyKey dto) (dto_payload dto)
              PENDING None 0 3 None None).
  set (w1 := mkWorld (rows w ++ [s]) (S (next_id w))
               (queue w ++ [submit_single (next_id w)]) (ledger w) (clock w)).
  assert (row_with_id (next_id w) (rows w1) = Some s) as Hrow
      by (apply (row_with_id_last (rows w) s Hb)).
  split; [apply in_or_app; right; now left|].
  cbn [process]. rewrite (handleSingleSubmission_found _ _ Hrow).
  cbn [payload s ledger w1]. rewrite Hledger. cbn [snd ledger]. split; [|reflexivity].
  apply getSubmission_found. cbn [rows].
  rewrite row_with_id_replace, Hrow. cbn [id completed_with set_status
    set_completedAt set_transactionHash s]. now rewrite Nat.eqb_refl.
Qed.

End Properties.

(** * The engine on concrete inputs *)

(** C1, at the input where the code departs from it.  A second request with the key ["k1"] is refused with a
    ConflictException and nothing is stored or queued, as the claim says;
    but the exception carries a message only, so the existing record does
    not reach the caller. *)
Theorem createSubmission_duplicate_key_throws_message_only :
  row_with_key "k1" (rows stored_k1) = Some pending_k1
  /\ createSubmission (request "k1" "h2") stored_k1
     = (inl (ConflictException "Submission with idempotency key k1 already exists"),
        stored_k1).
Proof. split; reflexivity. Qed.

(** C3, at the input where the code departs from it.  The first delivery fails below the retry ceiling.  The
    entity in memory ends RETRYING with retryCount 1 and the error message,
    but the handler throws before it saves: the row stays PROCESSING with
    retryCount 0 and no error message. *)
Theorem retrying_state_is_not_persisted :
  exists w',
    attempt_single (pending_k1, stored_k1)
    = (inl (Error "Retry needed with delay 2000ms"),
       (mkSubmission 0 "k1" (doc "h1") RETRYING None 1 3 (Some "tx_failed") None, w'))
    /\ handleSingleSubmission 0 stored_k1
       = (inl (Error "Retry needed with delay 2000ms"), w')
    /\ rows w' = [mkSubmission 0 "k1" (doc "h1") PROCESSING None 0 3 None None].
Proof. eexists. repeat split; reflexivity. Qed.

(** C4, at the input where the code departs from it.  With the ledger down, the record of an accepted request
    (maxRetries 3) is PROCESSING with retryCount 0 after any number of
    deliveries: it never becomes RETRYING or FAILED in the store, and its
    retry count never reaches maxRetries. *)
Theorem retry_ceiling_never_reached : forall n,
  row_with_id 0 (rows (deliveries (S n) 0 stored_k1_ledger_down))
  = Some (mkSubmission 0 "k1" (doc "h1") PROCESSING None 0 3 None None).
Proof.
  intros n.
  apply (@failing_deliveries_never_reach_failed nat down_ledger) with (s := pending_k1).
  - intros p l. exists "ledger unavailable", (S l). reflexivity.
  - reflexivity.
  - simpl. lia.
Qed.

(** C8, at the input where the code departs from it.  For a key that matches no row [getByIdempotencyKey]
    resolves to null, where [getSubmission] for an id that matches no row
    fails with NotFound.  Both leave the world as it is. *)
Theorem getByIdempotencyKey_unknown_key_resolves_null :
  getByIdempotencyKey "missing" stored_k1 = (inr None, stored_k1)
  /\ getSubmission 7 stored_k1
     = (inl (NotFoundException "Submission 7 not found"), stored_k1).
Proof. split; reflexivity. Qed.

(** C2 fails as stated: the job of a Completed record is delivered again,
    the ledger is called a second time, and the row is left PROCESSING
    or, when the ledger takes the payload, COMPLETED with another
    reference; and the submit-batch job of a Completed record stores it
    FAILED. *)
Lemma redelivery_of_completed_is_processed :
  row_with_id 0 (rows completed_k1) = Some completed_row
  /\ calls (ledger completed_k1) = 1
  /\ calls (ledger (snd (process (submit_single 0) completed_k1))) = 2
  /\ row_with_id 0 (rows (snd (process (submit_single 0) completed_k1)))
     = Some (set_status PROCESSING completed_row)
  /\ ~ redelivery_is_noop 0 completed_k1
  /\ row_with_id 0 (rows completed_k1_ledger_up) = Some completed_row
  /\ calls (ledger (snd (process (submit_single 0) completed_k1_ledger_up))) = 2
  /\ row_with_id 0 (rows (snd (process (submit_single 0) completed_k1_ledger_up)))
     = Some (completed_with "tx1" 0 completed_row)
  /\ ~ step_keeps_terminal (submit_single 0) completed_k1_ledger_up
  /\ row_with_id 0 (rows (snd (process (submit_batch [0]) completed_k1)))
     = Some (set_errorMessage (Some "Batch submission failed")
               (set_status FAILED completed_row))
  /\ ~ step_keeps_terminal (submit_batch [0]) completed_k1.
Proof.
  repeat split; try reflexivity.
  - intros H. destruct (H completed_row eq_refl eq_refl) as [Hl _].
    vm_compute in Hl. discriminate.
  - intros H. destruct (H 0 completed_row eq_refl eq_refl) as (s' & Hs' & _ & Hh & _).
    vm_compute in Hs'. injection Hs' as <-. discriminate.
  - intros H. destruct (H 0 completed_row eq_refl eq_refl) as (s' & Hs' & Hst & _).
    vm_compute in Hs'. injection Hs' as <-. discriminate.
Qed.

Lemma terminal_record_is_processed_again_witness :
  is_terminal (status completed_row) = true
  /\ row_with_id 0 (rows (snd (process (submit_single 0) completed_k1_ledger_up)))
     = Some (completed_with "tx1" 0 completed_row)
  /\ (exists e, fst (process (submit_single 0) completed_k1) = inl e)
  /\ row_with_id 0 (rows (snd (process (submit_batch [0]) completed_k1)))
     = Some (set_errorMessage (Some "Batch submission failed")
               (set_status FAILED completed_row)).
Proof.
  split; [reflexivity|].
  destruct (@terminal_record_is_processed_again Scripted scripted_ledger
              completed_k1_ledger_up 0 completed_row eq_refl eq_refl eq_refl)
    as (_ & (_ & [_ Hup] & _) & _).
  destruct (@terminal_record_is_processed_again Scripted scripted_ledger
              completed_k1 0 completed_row eq_refl eq_refl eq_refl)
    as (_ & (_ & Hdown & _) & Hbatch).
  destruct (Hbatch [0] eq_refl) as (_ & _ & k & Hk & _ & Hfailed).
  destruct k as [|[|k]]; try discriminate Hk.
  split; [exact Hup|]. split; [exact Hdown|].
  apply Hfailed. reflexivity.
Defined.

(** C5 fails as stated: the second request of the batch carries the stored
    key ["k1"]; the call ends in the conflict, with the first request
    stored, the third not, and no submit-batch job. *)
Lemma createBatch_fails_on_duplicate_key :
  (exists w',
     createBatch [request "k2" "1"; request "k1" "2"; request "k3" "3"] stored_k1
     = (inl (ConflictException "Submission with idempotency key k1 already exists"), w')
     /\ map idempotencyKey (rows w') = ["k1"; "k2"]
     /\ queue w' = [submit_single 0; submit_single 1])
  /\ ~ batch_survives_conflict
         [request "k2" "1"; request "k1" "2"; request "k3" "3"] stored_k1.
Proof.
  split.
  - eexists. repeat split; reflexivity.
  - intros (submissions & w' & E & _). vm_compute in E. discriminate.
Qed.

Lemma createBatch_stops_at_first_conflict_witness :
  exists w',
    createBatch [request "k2" "1"; request "k1" "2"; request "k3" "3"] stored_k1
    = (inl (ConflictException "Submission with idempotency key k1 already exists"), w')
    /\ rows w' = rows stored_k1 ++ new_records 1 [request "k2" "1"]
    /\ queue w' = queue stored_k1 ++ [submit_single 1].
Proof.
  exact (proj2 (@createBatch_stops_at_first_conflict Scripted stored_k1
                  [request "k2" "1"; request "k1" "2"; request "k3" "3"])
           [request "k2" "1"] (request "k1" "2") [request "k3" "3"]
           eq_refl eq_refl eq_refl).
Defined.

(** The example of C6: of three records the ledger takes the first and the
    third and refuses the second. *)
Lemma handleBatchSubmission_outcomes_witness :
  unique_ids batch_of_three
  /\ exists w',
       handleBatchSubmission [0; 1; 2] batch_of_three = (inr tt, w')
       /\ map (fun s => (status s, transactionHash s, retryCount s)) (rows w')
          = [(COMPLETED, Some "tx0", 0); (FAILED, None, 0); (COMPLETED, Some "tx2", 0)]
       /\ calls (ledger w') = 3.
Proof.
  split; [reflexivity|].
  destruct (@handleBatchSubmission_outcomes Scripted scripted_ledger
              batch_of_three [0; 1; 2] eq_refl)
    as (_ & _ & w' & E & _).
  exists w'. split; [exact E|].
  vm_compute in E. injection E as <-. split; reflexivity.
Defined.

(** C7 fails as stated: the record of a batch of one was completed by its
    submit-single job; the submit-batch job then stores it FAILED and the
    reference stays. *)
Lemma completed_iff_hash_broken_by_batch_job :
  (forall s, In s (rows batch_of_one_completed) -> completed_iff_hash s)
  /\ queue batch_of_one_completed = [submit_single 0; submit_batch [0]]
  /\ rows (snd (process (submit_batch [0]) batch_of_one_completed))
     = [mkSubmission 0 "k1" (doc "h1") FAILED (Some "tx0") 0 3
          (Some "Batch submission failed") (Some 0)]
  /\ ~ (forall s, In s (rows (snd (process (submit_batch [0]) batch_of_one_completed))) ->
          completed_iff_hash s).
Proof.
  split; [|split; [reflexivity|split; [reflexivity|]]].
  - intros s [<-|[]]. split; [discriminate | reflexivity].
  - intros H. specialize (H _ (or_introl eq_refl)).
    destruct H as [_ H]. cbn in H.
    assert (FAILED = COMPLETED) by (apply H; discriminate). discriminate.
Qed.

Lemma completed_has_hash_preserved_witness :
  completed_has_hash
    (mkSubmission 0 "k1" (doc "h1") FAILED (Some "tx0") 0 3
       (Some "Batch submission failed") (Some 0)).
Proof.
  refine (proj1 (@completed_has_hash_preserved Scripted scripted_ledger
                   batch_of_one_completed (submit_batch [0]) _ _ (or_introl eq_refl))).
  intros s [<-|[]]. discriminate.
Defined.

Lemma backoff_delay_exponential_witness :
  backoff_delay 1 < backoff_delay 2
  /\ fst (handleSingleSubmission 0 stored_k1)
     = inl (Error "Retry needed with delay 2000ms")
  /\ fst (handleSingleSubmission 0
            (after_events [http (POST_submissions (request "k1" "h1"))]
               (fresh_world (mkScripted [] 0) 0)))
     = inl (Error "Retry needed with delay 2000ms").
Proof.
  split; [|split].
  - apply (proj1 (proj2 (@backoff_delay_exponential Scripted scripted_ledger)));
      lia.
  - apply (proj1 (proj2 (proj2 (@backoff_delay_exponential Scripted scripted_ledger)))
             stored_k1 0 pending_k1 "tx_failed" (mkScripted [] 1));
      [reflexivity | reflexivity | simpl; lia | simpl; lia].
  - apply (proj2 (proj2 (proj2 (@backoff_delay_exponential Scripted scripted_ledger)))
             [http (POST_submissions (request "k1" "h1"))] (mkScripted [] 0) 0
             0 pending_k1 "tx_failed" (mkScripted [] 1));
      reflexivity.
Defined.

Lemma listSubmissions_cap_only_without_filter_witness :
  length (rows crowded) = 150
  /\ (exists found, listSubmissions None crowded = (inr found, crowded)
                    /\ length found = 100)
  /\ (exists found, listSubmissions (Some PENDING) crowded = (inr found, crowded)
                    /\ length found = 150).
Proof.
  split; [reflexivity|]. split.
  - eexists. split.
    + exact (proj1 (@listSubmissions_cap_only_without_filter Scripted crowded)).
    + reflexivity.
  - eexists. split.
    + exact (proj1 (proj2 (proj2 (@listSubmissions_cap_only_without_filter Scripted crowded))
                      PENDING)).
    + reflexivity.
Defined.

(** * The further properties on concrete inputs *)

Lemma empty_world_store_ok : store_ok (empty_world []).
Proof. split; [reflexivity | constructor]. Qed.

Lemma stored_k1_store_ok : store_ok stored_k1.
Proof. split; [reflexivity | repeat constructor]. Qed.

Lemma created_submission_is_read_back_witness :
  getSubmission 0 stored_k1 = (inr pending_k1, stored_k1)
  /\ getByIdempotencyKey "k1" stored_k1 = (inr (Some pending_k1), stored_k1)
  /\ In (submit_single 0) (queue stored_k1).
Proof.
  destruct (@created_submission_is_read_back Scripted (empty_world []) stored_k1
              (request "k1" "h1") pending_k1 empty_world_store_ok eq_refl)
    as (Hid & Hkey & _ & Hjob).
  exact (conj Hid (conj Hkey Hjob)).
Defined.

(** The job of an id that was never handed out, and the submit-batch job
    of an empty batch. *)
Lemma process_unknown_ids_is_noop_witness :
  process (submit_single 7) stored_k1 = (inr tt, stored_k1)
  /\ process (submit_batch []) stored_k1 = (inr tt, stored_k1).
Proof.
  split.
  - apply (@process_unknown_ids_is_noop Scripted scripted_ledger stored_k1
             (submit_single 7)).
    intros i Hi. unfold references in Hi. apply Nat.eqb_eq in Hi. subst i. reflexivity.
  - apply (@process_unknown_ids_is_noop Scripted scripted_ledger stored_k1
             (submit_batch [])).
    intros i Hi. simpl in Hi. discriminate.
Defined.

Lemma process_keeps_fixed_columns_witness :
  option_map fixed_columns
    (row_with_id 1 (rows (snd (process (submit_batch [0; 1; 2]) batch_of_three))))
  = Some (1, "b", doc "2", 3)
  /\ length (rows (snd (process (submit_batch [0; 1; 2]) batch_of_three))) = 3
  /\ queue (snd (process (submit_batch [0; 1; 2]) batch_of_three))
     = [submit_single 0; submit_single 1; submit_single 2; submit_batch [0; 1; 2]].
Proof.
  destruct (@process_keeps_fixed_columns Scripted scripted_ledger batch_of_three
              (submit_batch [0; 1; 2]) eq_refl) as (Hrows & Hlen & Hqueue & _).
  split; [rewrite Hrows | split; [rewrite Hlen | rewrite Hqueue]]; reflexivity.
Defined.

Lemma process_bookkeeping_monotone_witness :
  exists s',
    row_with_id 0 (rows (snd (process (submit_batch [0]) batch_of_one_completed)))
    = Some s'
    /\ retryCount s' <= 1
    /\ transactionHash s' <> None.
Proof.
  destruct (@process_bookkeeping_monotone Scripted scripted_ledger
              batch_of_one_completed (submit_batch [0]) 0 completed_row
              eq_refl eq_refl) as (s' & Hrow & [_ Hrc] & Hhash & _).
  exists s'. split; [exact Hrow|]. split; [exact Hrc|].
  apply Hhash. discriminate.
Defined.

Lemma handleBatchSubmission_reads_ids_as_set_witness :
  handleBatchSubmission [0; 1; 2] batch_of_three
  = handleBatchSubmission [2; 2; 1; 0] batch_of_three.
Proof.
  apply (@handleBatchSubmission_reads_ids_as_set Scripted scripted_ledger
           batch_of_three [0; 1; 2] [2; 2; 1; 0]).
  intros i. simpl. tauto.
Defined.

(** A batch of two in front of a fresh store: four calls reach the ledger. *)
Lemma batch_items_reach_the_ledger_twice_witness :
  calls (ledger (after_events
                   (map delivery [submit_single 0; submit_single 1; submit_batch [0; 1]])
                   (snd (createBatch [request "a" "1"; request "b" "2"]
                           (empty_world [])))))
  = 4.
Proof.
  exact (f_equal calls
           (proj2 (@batch_items_reach_the_ledger_twice Scripted scripted_ledger
                     (empty_world []) [request "a" "1"; request "b" "2"]
                     empty_world_store_ok eq_refl))).
Defined.

Lemma accepted_submission_completes_witness :
  getSubmission 0 completed_k1 = (inr completed_row, completed_k1)
  /\ calls (ledger completed_k1) = 1.
Proof.
  destruct (@accepted_submission_completes Scripted scripted_ledger
              (empty_world [true]) (request "k1" "h1") "tx0" (mkScripted [] 1)
              (conj eq_refl (Forall_nil _)) eq_refl eq_refl) as (_ & Hget & Hl).
  split; [exact Hget|].
  exact (f_equal calls Hl).
Defined.
